(** * Claude-Matrix: semantic memory store and incremental code index

  A shallow embedding of the parts of the repository that the
  specification makes claims about:

  - [Indexer]  : [computeDiff] of [src/indexer/diff.ts];
  - [Store]    : [calculateComplexity] and [matrixStore] (second document of
                 the same file) over a model of the [solutions] table;
  - [Merge]    : the candidate scan of [merge] and [executeMerge] of
                 [src/cli/merge.ts];
  - [TsParser] : [parseFile] and its handlers (TypeScript parser).

  Numbers: counters, lengths and mtimes are JavaScript numbers holding
  integers; they are modelled as [Z] (no precision loss below 2^53, which
  is out of reach for the counters of a local store).  Similarities are
  JavaScript doubles; they are modelled as rationals [Q], i.e. as finite
  numbers (the embedding never produces NaN).  *)

From stdpp Require Import gmap strings list fin_maps.
From Stdlib Require Import ZArith QArith Qround Lqa Sorted Permutation.
From Stdlib Require Import Decimal DecimalString.

Local Open Scope Z_scope.
Set Warnings "-clear-no-such-hyp".

(* ===================================================================== *)
(** * Code that threads a state and may throw                            *)
(* ===================================================================== *)

Module Eff.

Inductive result (E A : Type) :=
  | Ok (a : A)
  | Err (e : E).
Global Arguments Ok {E A} a.
Global Arguments Err {E A} e.

(** A computation over a mutable store [S] that returns or throws; what it
    wrote before a throw stays written. *)
Definition M (S E A : Type) : Type := S → result E A * S.

Definition ret {S E A} (a : A) : M S E A := λ st, (Ok a, st).
Definition throw {S E A} (e : E) : M S E A := λ st, (Err e, st).
Definition bind {S E A B} (m : M S E A) (k : A → M S E B) : M S E B :=
  λ st, match m st with
        | (Ok a, st') => k a st'
        | (Err e, st') => (Err e, st')
        end.
(** The outcome of a call into a library, as a computation. *)
Definition call {S E A} (r : result E A) : M S E A := λ st, (r, st).
Definition gets {S E A} (f : S → A) : M S E A := λ st, (Ok (f st), st).
Definition modify {S E} (f : S → S) : M S E unit := λ st, (Ok (), f st).

(** Sequencing of library calls that write nothing. *)
Definition rbind {E A B} (r : result E A) (k : A → result E B) : result E B :=
  match r with
  | Ok a => k a
  | Err e => Err e
  end.

(** [xs.map(f)] where [f] may throw: the first throw ends the map. *)
Fixpoint rmap {E A B} (f : A → result E B) (xs : list A) : result E (list B) :=
  match xs with
  | [] => Ok []
  | x :: xs' => rbind (f x) (λ y, rbind (rmap f xs') (λ ys, Ok (y :: ys)))
  end.

(** [for (const x of xs) body(x)] *)
Fixpoint for_each {S E A} (body : A → M S E unit) (xs : list A) : M S E unit :=
  match xs with
  | [] => ret ()
  | x :: xs' => bind (body x) (λ _, for_each body xs')
  end.

Declare Scope eff_scope.
Delimit Scope eff_scope with eff.
Notation "'let!' x ':=' m 'in' k" := (bind m (λ x, k))
  (at level 10, x name, m at level 100, k at level 200) : eff_scope.
Notation "m ;; k" := (bind m (λ _, k))
  (at level 100, right associativity) : eff_scope.

End Eff.

(* ===================================================================== *)
(** * JavaScript strings                                                  *)
(* ===================================================================== *)

Module Js.

(** [`${n}`] for a length or a count: its decimal digits. *)
Definition number_to_string (n : nat) : string :=
  NilZero.string_of_uint (Nat.to_uint n).

(** [parts.join(sep)] *)
Fixpoint join (sep : string) (parts : list string) : string :=
  match parts with
  | [] => EmptyString
  | [p] => p
  | p :: rest => String.append p (String.append sep (join sep rest))
  end.

(** [s.startsWith(prefix)] *)
Definition startsWith (prefix s : string) : bool := String.prefix prefix s.

(** [s.endsWith(suffix)]; also what a literal [/suffix$/.test(s)] decides. *)
Definition endsWith (suffix s : string) : bool :=
  (String.length suffix <=? String.length s)%nat
  && String.eqb
       (String.substring (String.length s - String.length suffix)
          (String.length suffix) s)
       suffix.

(** [s.includes(part)] *)
Definition includes (part s : string) : bool :=
  if String.index 0 part s is Some _ then true else false.

(** [s.split(sep)] for a one-character separator: the pieces between the
    separators, at least one piece. *)
Fixpoint split_from (sep : Ascii.ascii) (s piece : string) : list string :=
  match s with
  | EmptyString => [piece]
  | String c s' =>
      if Ascii.eqb c sep then piece :: split_from sep s' EmptyString
      else split_from sep s' (String.append piece (String c EmptyString))
  end.

Definition split (sep : Ascii.ascii) (s : string) : list string :=
  split_from sep s EmptyString.

(** [parseFloat] of the runtime: [None] stands for NaN; the infinities are
    left out. *)
Class Numbers := {
  parseFloat : string → option Q;
}.

(** [JSON.parse(text) as string[]] of the runtime, for a text that is
    expected to hold an array of strings: the strings of the array, [None]
    when [JSON.parse] throws its SyntaxError.  Texts that are JSON for
    another kind of value are left out. *)
Class Json := {
  JSON_parse : string → option (list string);
}.

(** [x || d] on a number: NaN and 0 are falsy. *)
Definition number_or (x : option Q) (d : Q) : Q :=
  match x with
  | Some q => if Qeq_bool q 0 then d else q
  | None => d
  end.

(** [x > y] on finite numbers. *)
Definition Qgt_bool (x y : Q) : bool :=
  (Qnum y * QDen x <? Qnum x * QDen y)%Z.

End Js.

(* ===================================================================== *)
(** * Incremental indexer: [computeDiff]                                  *)
(* ===================================================================== *)

Module Indexer.

(** [ScannedFile] as built by the scanner ([path], [absolutePath],
    [mtime = Math.floor(stats.mtimeMs)]). *)
Record ScannedFile := mkScannedFile {
  path : string;
  absolutePath : string;
  mtime : Z;
}.

(** A row of [repo_files]; [computeDiff] only reads [mtime]. *)
Record RepoFileRow := mkRepoFileRow {
  row_path : string;
  row_mtime : Z;
  row_language : string;
}.

Record FileDiff := mkFileDiff {
  added : list ScannedFile;
  modified : list ScannedFile;
  deleted : list string;
}.

(** The three mutable locals of the first loop. *)
Record DiffLoop := mkDiffLoop {
  acc_added : list ScannedFile;
  acc_modified : list ScannedFile;
  seenPaths : gset string;
}.

Definition loop_init : DiffLoop := mkDiffLoop [] [] ∅.

(** One iteration of [for (const file of scannedFiles)]. *)
Definition loop_body (indexedFiles : gmap string RepoFileRow)
    (st : DiffLoop) (file : ScannedFile) : DiffLoop :=
  let st' :=
    match indexedFiles !! path file with
    | None =>
        mkDiffLoop (acc_added st ++ [file]) (acc_modified st) (seenPaths st)
    | Some indexed =>
        if bool_decide (row_mtime indexed < mtime file)
        then mkDiffLoop (acc_added st) (acc_modified st ++ [file]) (seenPaths st)
        else st
    end in
  mkDiffLoop (acc_added st') (acc_modified st') ({[ path file ]} ∪ seenPaths st').

(** [computeDiff].  The second loop walks the keys of the [Map]; a JS [Map]
    iterates in insertion order, [map_to_list] in the order of the finite
    map, so the order inside [deleted] is not the one of the source (the
    members are). *)
Definition computeDiff (scannedFiles : list ScannedFile)
    (indexedFiles : gmap string RepoFileRow) : FileDiff :=
  let st := foldl (loop_body indexedFiles) loop_init scannedFiles in
  let deleted :=
    filter (λ p, p ∉ seenPaths st) (fst <$> map_to_list indexedFiles) in
  mkFileDiff (acc_added st) (acc_modified st) deleted.

Definition hasChanges (diff : FileDiff) : bool :=
  bool_decide (0 < Z.of_nat (length (added diff)))
  || bool_decide (0 < Z.of_nat (length (modified diff)))
  || bool_decide (0 < Z.of_nat (length (deleted diff))).

(** The classification in the words of the specification. *)
Definition is_added (indexedFiles : gmap string RepoFileRow) (f : ScannedFile) : Prop :=
  indexedFiles !! path f = None.

Definition is_modified (indexedFiles : gmap string RepoFileRow) (f : ScannedFile) : Prop :=
  ∃ row, indexedFiles !! path f = Some row ∧ row_mtime row < mtime f.

Global Instance is_added_dec ix f : Decision (is_added ix f).
Proof. unfold is_added. apply _. Defined.

Global Instance is_modified_dec ix f : Decision (is_modified ix f).
Proof.
  unfold is_modified. destruct (ix !! path f) as [row|] eqn:E.
  - destruct (decide (row_mtime row < mtime f)) as [H|H].
    + left. by exists row.
    + right. intros (r & Hr & Hlt). by simplify_eq.
  - right. intros (r & Hr & _). discriminate.
Defined.

(** [getDiffSummary] *)
Definition getDiffSummary (diff : FileDiff) : string :=
  let parts : list string := [] in
  let parts :=
    if bool_decide (0 < Z.of_nat (length (added diff)))
    then parts ++ [String.append (Js.number_to_string (length (added diff))) " new"]
    else parts in
  let parts :=
    if bool_decide (0 < Z.of_nat (length (modified diff)))
    then parts ++ [String.append (Js.number_to_string (length (modified diff))) " modified"]
    else parts in
  let parts :=
    if bool_decide (0 < Z.of_nat (length (deleted diff)))
    then parts ++ [String.append (Js.number_to_string (length (deleted diff))) " deleted"]
    else parts in
  if bool_decide (length parts = 0%nat) then "No changes"%string
  else Js.join ", " parts.

(** [getChangedFileCount] *)
Definition getChangedFileCount (diff : FileDiff) : Z :=
  Z.of_nat (length (added diff)) + Z.of_nat (length (modified diff))
  + Z.of_nat (length (deleted diff)).

End Indexer.

(* ===================================================================== *)
(** * Shared vocabulary: embeddings, similarities, the database          *)
(* ===================================================================== *)

Module Db.
Import Eff.

(** A [Float32Array]: a vector of finite numbers. *)
Abbreviation Embedding := (list Q).

(** A [Uint8Array] column value (the serialized embedding). *)
Abbreviation Blob := (list Z).

(** Modelled from the spec: the constant [EMBEDDING_DIM] of
    [embeddings/local.js], which is not among the sources verified here; the
    specification fixes the vector length to D = 384. *)
Definition EMBEDDING_DIM : nat := 384.

(** The helpers [merge.ts] and the store import from [db/] and
    [embeddings/]; their code is not among the sources verified here, so every
    definition below is parametric in them.  [None] stands for a thrown
    exception ([ModelUnavailable], [DimensionMismatch], a [RangeError] of the
    typed-array constructor, ...). *)
Class Helpers := {
  getEmbedding : string → option Embedding;
  embeddingToBuffer : Embedding → Blob;
  bufferToEmbedding : Blob → option Embedding;
  cosineSimilarity : Embedding → Embedding → option Q;
}.

Inductive Scope := ScopeGlobal | ScopeStack | ScopeRepo.

Inductive SolutionCategory :=
  Bugfix | Feature | Refactor | Config | Pattern | Optimization.

Record CodeBlock := mkCodeBlock {
  cb_language : string;
  cb_code : string;
  cb_description : string;
}.

(** The [tags] column is a text.  [matrixStore] and [executeMerge] write
    [JSON.stringify] of an array of strings there, which is kept in decoded
    form ([TagsJson]: [JSON.parse] gives the array back); the [edit] command
    writes whatever text the user enters ([TagsText]), JSON or not.  An
    absent value behaves as the empty text. *)
Inductive TagsColumn :=
  | TagsJson (array : list string)
  | TagsText (text : string).

(** A row of [solutions], keyed by its [id] in the table.  The other JSON
    columns ([context], [prerequisites], ...) hold what [JSON.stringify]
    wrote and are kept in decoded form. *)
Record SolutionRow := mkSolutionRow {
  repo_id : string;
  problem : string;
  problem_embedding : Blob;
  solution : string;
  scope : Scope;
  context : list string;
  tags : TagsColumn;
  score : Q;
  uses : Z;
  successes : Z;
  partial_successes : Z;
  failures : Z;
  category : option SolutionCategory;
  complexity : Z;
  prerequisites : list string;
  anti_patterns : list string;
  code_blocks : list CodeBlock;
  related_solutions : list string;
  supersedes : option string;
  created_at : Z;
  updated_at : Z;
}.

(** A row of [usage_log]; [notes] of a merge is the text
    [Merged from <id>: +<uses> uses], kept as its two holes. *)
Record UsageLogRow := mkUsageLogRow {
  log_solution_id : string;
  log_outcome : string;
  log_merged_from : string;
  log_merged_uses : Z;
  log_created_at : Z;
}.

Record State := mkState {
  solutions : gmap string SolutionRow;
  usage_log : list UsageLogRow;
}.

Inductive Error :=
  | NotFound (id : string)
  | ModelUnavailable
  | ConstraintFailed (column : string)
  | SyntaxError (text : string).

(** Code that reads and writes the database. *)
Abbreviation M := (Eff.M State Error).

(** [db.query('SELECT ... FROM solutions WHERE id = ?').get(id)] *)
Definition select_solution (id : string) : M (option SolutionRow) :=
  gets (λ st, solutions st !! id).

(** [INSERT INTO solutions ...]: [id] is the primary key of the table and
    [complexity] is checked to lie in 1..10 (the storage test "enforces
    complexity range"); [scope] and [category] are checked as well, which
    their types ensure here. *)
Definition insert_solution (id : string) (row : SolutionRow) : M unit :=
  λ st,
    if bool_decide (is_Some (solutions st !! id)) then (Err (ConstraintFailed "id"), st)
    else if negb (bool_decide (1 ≤ complexity row ≤ 10)) then (Err (ConstraintFailed "complexity"), st)
    else (Ok (), mkState (<[id := row]> (solutions st)) (usage_log st)).

(** [UPDATE solutions SET ... WHERE id = ?]: no row, no change. *)
Definition update_solution (id : string) (f : SolutionRow → SolutionRow) : M unit :=
  modify (λ st, mkState (alter f id (solutions st)) (usage_log st)).

(** [DELETE FROM solutions WHERE id = ?] *)
Definition delete_solution (id : string) : M unit :=
  modify (λ st, mkState (delete id (solutions st)) (usage_log st)).

(** [INSERT INTO usage_log ...] *)
Definition insert_usage_log (row : UsageLogRow) : M unit :=
  modify (λ st, mkState (solutions st) (usage_log st ++ [row])).

(** [Array.prototype.sort] with the comparator [(a, b) => key(b) - key(a)]:
    a stable sort, descending in [key]. *)
Fixpoint insert_desc {A} (key : A → Q) (x : A) (l : list A) : list A :=
  match l with
  | [] => [x]
  | y :: l' =>
      if Qle_bool (key y) (key x) then x :: l
      else y :: insert_desc key x l'
  end.

Definition sort_desc {A} (key : A → Q) (l : list A) : list A :=
  foldr (insert_desc key) [] l.

(** Descending in [key]: every element is at least all that follow it. *)
Definition descending {A} (key : A → Q) (l : list A) : Prop :=
  StronglySorted (λ x y, (key y <= key x)%Q) l.

End Db.

(* ===================================================================== *)
(** * The solution store: [calculateComplexity] and [matrixStore]        *)
(* ===================================================================== *)

Module Store.
Import Eff Db.
Local Open Scope eff_scope.

Record StoreInput := mkStoreInput {
  in_problem : string;
  in_solution : string;
  in_scope : Scope;
  in_tags : option (list string);
  in_filesAffected : option (list string);
  in_category : option SolutionCategory;
  in_complexity : option Z;
  in_prerequisites : option (list string);
  in_antiPatterns : option (list string);
  in_codeBlocks : option (list CodeBlock);
  in_relatedSolutions : option (list string);
  in_supersedes : option string;
}.

Inductive StoreStatus := Stored | Duplicate | Superseded.

Record StoreResult := mkStoreResult {
  res_id : string;
  res_status : StoreStatus;
  res_problem : string;
  res_scope : Scope;
  res_tags : list string;
  res_similarity : option Q;
  res_category : option SolutionCategory;
  res_complexity : option Z;
  res_supersededId : option string;
}.

(** [xs?.length] used as a condition: truthy for a present, non-empty array. *)
Definition has_length {A} (xs : option (list A)) : bool :=
  match xs with
  | Some (_ :: _) => true
  | _ => false
  end.

(** [xs.length] behind such a condition. *)
Definition len {A} (xs : option (list A)) : Z :=
  Z.of_nat (length (default [] xs)).

(** [xs || []] *)
Definition or_empty {A} (xs : option (list A)) : list A := default [] xs.

Definition calculateComplexity (input : StoreInput) : Z :=
  let score := 1 in
  let score := score + Z.min 4 (Z.of_nat (String.length (in_solution input)) / 500) in
  let score :=
    if has_length (in_codeBlocks input)
    then score + Z.min 2 (len (in_codeBlocks input)) else score in
  let score :=
    if has_length (in_prerequisites input)
    then score + Z.min 2 (len (in_prerequisites input)) else score in
  let score :=
    if has_length (in_filesAffected input)
    then score + Z.min 2 (len (in_filesAffected input) / 2) else score in
  Z.min 10 (Z.max 1 score).

(** The derivation in the words of the specification: each optional list
    contributes when it is given. *)
Definition given_count {A} (xs : option (list A)) (f : Z → Z) : Z :=
  match xs with
  | Some l => f (Z.of_nat (length l))
  | None => 0
  end.

Definition clamp (lo hi x : Z) : Z := Z.max lo (Z.min hi x).

Definition derived_complexity_spec (input : StoreInput) : Z :=
  clamp 1 10
    (1
     + Z.min 4 (Z.of_nat (String.length (in_solution input)) / 500)
     + given_count (in_codeBlocks input) (λ n, Z.min 2 n)
     + given_count (in_prerequisites input) (λ n, Z.min 2 n)
     + given_count (in_filesAffected input) (λ n, Z.min 2 (n / 2))).

(** A hit of the similarity search. *)
Record Match := mkMatch {
  match_id : string;
  similarity : Q;
}.

Section WithHelpers.
Context `{Helpers}.

(** The similarity of a stored row to a query vector, when the row has a
    readable embedding and the comparison does not throw. *)
Definition row_similarity (query : Embedding) (row : SolutionRow) : option Q :=
  match bufferToEmbedding (problem_embedding row) with
  | Some e => cosineSimilarity query e
  | None => None
  end.

Definition score_row (query : Embedding) (kv : string * SolutionRow) : option Match :=
  match row_similarity query kv.2 with
  | Some s => Some (mkMatch kv.1 s)
  | None => None
  end.

(** Modelled from the spec: [searchSimilarSolutions] of [db/client.js],
    which is not among the sources verified here.  Following the contract of the
    similarity search (4.2): rows with missing or corrupt embeddings are
    skipped, the hits have similarity at least [minScore], they are ranked
    by descending similarity (ties keep the order of the table), and at most
    [limit] of them are returned. *)
Definition searchSimilarSolutions (query : Embedding) (limit : nat) (minScore : Q)
    (st : State) : list Match :=
  take limit
    (sort_desc similarity
       (List.filter (λ m, Qle_bool minScore (similarity m))
          (omap (score_row query) (map_to_list (solutions st))))).

(** Some stored solution has similarity at least 0.9 to the query. *)
Definition near_duplicate (query : Embedding) (st : State) : Prop :=
  ∃ id row s,
    solutions st !! id = Some row ∧ row_similarity query row = Some s ∧ (9 # 10 <= s)%Q.

(** [s.slice(0, 100) + (s.length > 100 ? '...' : '')] *)
Definition preview (s : string) : string :=
  String.append (String.substring 0 100 s)
    (if bool_decide (100 < Z.of_nat (String.length s)) then "..." else "")%string.

(** [Math.round(x * 1000) / 1000]; [Math.round] is [floor(x + 1/2)]. *)
Definition round3 (x : Q) : Q :=
  (inject_Z (Qfloor (x * 1000 + (1 # 2))%Q) / 1000)%Q.

(** [if (s)] on an optional string: [undefined] and [''] are falsy. *)
Definition truthy (s : option string) : option string :=
  match s with
  | Some "" => None
  | _ => s
  end%string.

(** What one call draws from its surroundings: the random UUID, the id of
    the current repository ([getOrCreateRepo], which touches only the
    [repos] table) and the clock. *)
Record CallEnv := mkCallEnv {
  randomUUID : string;
  repoId : string;
  now : Z;
}.

(** The row of the [INSERT]: [score] 0.5, counters at their default 0. *)
Definition new_row (input : StoreInput) (env : CallEnv) (embedding : Embedding)
    : SolutionRow :=
  let embBuffer := embeddingToBuffer embedding in
  let context := or_empty (in_filesAffected input) in
  let tags := TagsJson (or_empty (in_tags input)) in
  let complexity := default (calculateComplexity input) (in_complexity input) in
  let prerequisites := or_empty (in_prerequisites input) in
  let antiPatterns := or_empty (in_antiPatterns input) in
  let codeBlocks := or_empty (in_codeBlocks input) in
  let relatedSolutions := or_empty (in_relatedSolutions input) in
  mkSolutionRow (repoId env) (in_problem input) embBuffer (in_solution input)
    (in_scope input) context tags (1 # 2) 0 0 0 0
    (in_category input) complexity prerequisites antiPatterns codeBlocks
    relatedSolutions (truthy (in_supersedes input)) (now env) (now env).

Definition new_result (input : StoreInput) (id : string) : StoreResult :=
  let complexity := default (calculateComplexity input) (in_complexity input) in
  mkStoreResult id
    (if truthy (in_supersedes input) is Some _ then Superseded else Stored)
    (preview (in_problem input)) (in_scope input) (or_empty (in_tags input))
    None (in_category input) (Some complexity) (in_supersedes input).

Definition duplicate_result (input : StoreInput) (dup : Match) (existing : SolutionRow)
    : StoreResult :=
  mkStoreResult (match_id dup) Duplicate (preview (problem existing))
    (in_scope input) (or_empty (in_tags input))
    (Some (round3 (similarity dup))) (category existing) None None.

(** The outcome "duplicate of [id] at similarity [s]" with the similarity
    carried as it is. *)
Definition duplicate_of (r : StoreResult) (id : string) (s : Q) : Prop :=
  res_status r = Duplicate ∧ res_id r = id
  ∧ ∃ q, res_similarity r = Some q ∧ (q == s)%Q.

(** Everything after the duplicate check: the [supersedes] test, the
    [INSERT] and the result. *)
Definition store_new (input : StoreInput) (env : CallEnv) (id : string)
    (embedding : Embedding) : M StoreResult :=
  (match truthy (in_supersedes input) with
   | Some target =>
       let! superseded := select_solution target in
       match superseded with
       | None => throw (NotFound target)
       | Some _ => ret ()
       end
   | None => ret ()
   end) ;;
  insert_solution id (new_row input env embedding) ;;
  ret (new_result input id).

Definition matrixStore (input : StoreInput) (env : CallEnv) : M StoreResult :=
  let id := String.append "sol_" (String.substring 0 8 (randomUUID env)) in
  match getEmbedding (in_problem input) with
  | None => throw ModelUnavailable
  | Some embedding =>
      let! duplicates := gets (searchSimilarSolutions embedding 1 (9 # 10)) in
      match duplicates with
      | dup :: _ =>
          let! existing := select_solution (match_id dup) in
          match existing with
          | Some row => ret (duplicate_result input dup row)
          | None => store_new input env id embedding
          end
      | [] => store_new input env id embedding
      end
  end.

End WithHelpers.

(** The constraints of the data model on a row, and on a table: the
    complexity range, a score between 0 and 1, counters that are not
    negative, and a [supersedes] that names a row of the table. *)
Definition row_valid (row : SolutionRow) : Prop :=
  1 ≤ complexity row ≤ 10
  ∧ (0 <= score row)%Q ∧ (score row <= 1)%Q
  ∧ 0 ≤ uses row ∧ 0 ≤ successes row
  ∧ 0 ≤ partial_successes row ∧ 0 ≤ failures row.

Definition table_valid (st : State) : Prop :=
  ∀ id row, solutions st !! id = Some row →
    row_valid row
    ∧ ∀ target, supersedes row = Some target → is_Some (solutions st !! target).

End Store.

(* ===================================================================== *)
(** * The merge command: candidate scan and [executeMerge]               *)
(* ===================================================================== *)

Module Merge.
Import Eff Db.
Local Open Scope eff_scope.

(** The [Solution] objects of [merge.ts]: the columns its [SELECT] lists. *)
Record Solution := mkSolution {
  id : string;
  problem : string;
  solution : string;
  scope : Scope;
  score : Q;
  uses : Z;
  successes : Z;
  partial_successes : Z;
  failures : Z;
  tags : TagsColumn;
  problem_embedding : Blob;
  created_at : Z;
}.

Record MergeCandidate := mkMergeCandidate {
  a : Solution;
  b : Solution;
  similarity : Q;
}.

(** The object the [SELECT] of [merge] builds from a row. *)
Definition to_solution (kv : string * SolutionRow) : Solution :=
  mkSolution kv.1 (Db.problem kv.2) (Db.solution kv.2) (Db.scope kv.2)
    (Db.score kv.2) (Db.uses kv.2) (Db.successes kv.2)
    (Db.partial_successes kv.2) (Db.failures kv.2) (Db.tags kv.2)
    (Db.problem_embedding kv.2) (Db.created_at kv.2).

(** [SELECT ... FROM solutions WHERE problem_embedding IS NOT NULL
     ORDER BY score DESC] *)
Definition load_solutions (st : State) : list Solution :=
  sort_desc score (to_solution <$> map_to_list (solutions st)).

Section WithHelpers.
Context `{Helpers}.

(** The body of the inner loop for one pair: [Some] when the pair is
    pushed, [None] on [continue] (from the dimension test or from [catch]). *)
Definition compare_pair (threshold : Q) (a b : Solution) : option MergeCandidate :=
  match bufferToEmbedding (problem_embedding a) with
  | None => None
  | Some embA =>
      match bufferToEmbedding (problem_embedding b) with
      | None => None
      | Some embB =>
          if bool_decide (length embA ≠ EMBEDDING_DIM)
             || bool_decide (length embB ≠ EMBEDDING_DIM)
          then None
          else
            match cosineSimilarity embA embB with
            | None => None
            | Some similarity =>
                if Qle_bool threshold similarity
                then Some (mkMergeCandidate a b similarity)
                else None
            end
      end
  end.

(** The pair in the words of the specification: both embeddings are
    readable and of length D, and their cosine similarity is [s], at least
    the threshold. *)
Definition similar_pair (threshold : Q) (a b : Solution) (s : Q) : Prop :=
  ∃ embA embB,
    bufferToEmbedding (problem_embedding a) = Some embA
    ∧ bufferToEmbedding (problem_embedding b) = Some embB
    ∧ length embA = EMBEDDING_DIM
    ∧ length embB = EMBEDDING_DIM
    ∧ cosineSimilarity embA embB = Some s
    ∧ (threshold <= s)%Q.

(** The two nested loops, [i] over the list and [j] over what follows [i];
    the result lists the pushes in order. *)
Fixpoint scan_pairs (threshold : Q) (solutions : list Solution) : list MergeCandidate :=
  match solutions with
  | [] => []
  | a :: rest => omap (compare_pair threshold a) rest ++ scan_pairs threshold rest
  end.

(** The candidate list of [merge] after [candidates.sort]; with fewer than
    two solutions the command returns before the scan. *)
Definition merge_candidates (threshold : Q) (solutions : list Solution) : list MergeCandidate :=
  if bool_decide (length solutions < 2)%nat then []
  else sort_desc similarity (scan_pairs threshold solutions).

End WithHelpers.

Definition pair_ids (c : MergeCandidate) : string * string :=
  (id (a c), id (b c)).

(** [[...new Set(xs)]]: the members of [xs], each at its first occurrence. *)
Fixpoint spread_set (xs : list string) : list string :=
  match xs with
  | [] => []
  | x :: xs' => x :: List.filter (λ y, negb (String.eqb x y)) (spread_set xs')
  end.

(** The row the [UPDATE] of [executeMerge] leaves at [keep.id]: the
    counters are computed from the two objects passed in, the tags are the
    combined ones, the other columns stay. *)
Definition merged_row (keep remove : Solution) (combinedTags : list string) (now : Z)
    (row : SolutionRow) : SolutionRow :=
  let newUses := uses keep + uses remove in
  let newSuccesses := successes keep + successes remove in
  let newPartial := partial_successes keep + partial_successes remove in
  let newFailures := failures keep + failures remove in
  mkSolutionRow (Db.repo_id row) (Db.problem row) (Db.problem_embedding row)
    (Db.solution row) (Db.scope row) (Db.context row)
    (TagsJson combinedTags) (Db.score row)
    newUses newSuccesses newPartial newFailures
    (Db.category row) (Db.complexity row) (Db.prerequisites row)
    (Db.anti_patterns row) (Db.code_blocks row) (Db.related_solutions row)
    (Db.supersedes row) (Db.created_at row) now.

(** The audit entry: outcome [success], notes [Merged from <id>: +<n> uses]. *)
Definition merge_log (keep remove : Solution) (now : Z) : UsageLogRow :=
  mkUsageLogRow (id keep) "success" (id remove) (uses remove) now.

(** The database after the three statements of [executeMerge]: the
    [UPDATE] at [keep.id], the [INSERT] into the audit log and the [DELETE]
    at [remove.id]. *)
Definition merged_state (keep remove : Solution) (combinedTags : list string)
    (now : Z) (st : State) : State :=
  mkState
    (delete (id remove)
       (alter (merged_row keep remove combinedTags now) (id keep) (solutions st)))
    (usage_log st ++ [merge_log keep remove now]).

Section WithJson.
Context `{Js.Json}.

(** [JSON.parse(sol.tags || '[]') as string[]]: the empty text is replaced
    by [[]]; a text that is no JSON makes [JSON.parse] throw. *)
Definition parse_tags (column : TagsColumn) : result Error (list string) :=
  match column with
  | TagsJson array => Ok array
  | TagsText text =>
      let source := if String.eqb text "" then "[]"%string else text in
      match Js.JSON_parse source with
      | Some array => Ok array
      | None => Err (SyntaxError source)
      end
  end.

(** Both tags texts are parsed before the first statement runs, so a throw
    leaves the database as it is. *)
Definition executeMerge (keep remove : Solution) (now : Z) : M unit :=
  let! keepTags := call (parse_tags (tags keep)) in
  let! removeTags := call (parse_tags (tags remove)) in
  let combinedTags := spread_set (keepTags ++ removeTags) in
  update_solution (id keep) (merged_row keep remove combinedTags now) ;;
  insert_usage_log (merge_log keep remove now) ;;
  delete_solution (id remove).

(** [printSolutionBlock] and [printMergePair] as far as the control flow
    goes: they write to the console, and the block of a solution parses its
    tags on the way, so printing a pair throws when the tags of A or of B
    are no JSON.  The formatting helpers of [utils/output.js] are not among
    the sources verified here and are taken to return. *)
Definition printSolutionBlock (sol : Solution) : M unit :=
  let! tags := call (parse_tags (tags sol)) in
  ret ().

Definition printMergePair (pair : MergeCandidate) : M unit :=
  printSolutionBlock (a pair) ;;
  printSolutionBlock (b pair).

End WithJson.

(** The keeper of a pair in the interactive loop. *)
Definition keeper (pair : MergeCandidate) : Solution :=
  if Qle_bool (score (b pair)) (score (a pair)) then a pair else b pair.

Definition removed (pair : MergeCandidate) : Solution :=
  if Qle_bool (score (b pair)) (score (a pair)) then b pair else a pair.

(** The arguments of [printSolutionBlock] that mark the recommended block
    in [printMergePair], and the recommendation line: the label and the
    first twelve characters of the id. *)
Definition marked_A (pair : MergeCandidate) : bool :=
  Qle_bool (score (b pair)) (score (a pair)).

Definition marked_B (pair : MergeCandidate) : bool :=
  Js.Qgt_bool (score (b pair)) (score (a pair)).

Definition recommendation (pair : MergeCandidate) : string * string :=
  let keep := if Qle_bool (score (b pair)) (score (a pair)) then "A" else "B" in
  let keepId := if String.eqb keep "A" then id (a pair) else id (b pair) in
  (keep, String.substring 0 12 keepId)%string.

Inductive MergeType := Solutions | Failures.

Record MergeOptions := mkMergeOptions {
  opt_threshold : Q;
  opt_type : MergeType;
  opt_dryRun : bool;
}.

(** [arg.split('=')[1]] *)
Definition second_field (arg : string) : option string :=
  Js.split (Ascii.ascii_of_nat 61) arg !! 1%nat.

Section WithNumbers.
Context `{Js.Numbers}.

(** One round of the loop over the arguments in [parseArgs]. *)
Definition parseArgs_step (o : MergeOptions) (arg : string) : MergeOptions :=
  if Js.startsWith "--threshold=" arg then
    mkMergeOptions
      (Js.number_or (Js.parseFloat (default "0.8"%string (second_field arg))) (8 # 10))
      (opt_type o) (opt_dryRun o)
  else if Js.startsWith "--type=" arg then
    let t := default EmptyString (second_field arg) in
    if String.eqb t "solutions" then
      mkMergeOptions (opt_threshold o) Solutions (opt_dryRun o)
    else if String.eqb t "failures" then
      mkMergeOptions (opt_threshold o) Failures (opt_dryRun o)
    else o
  else if String.eqb arg "--dry-run" then
    mkMergeOptions (opt_threshold o) (opt_type o) true
  else o.

Definition parseArgs (args : list string) : MergeOptions :=
  foldl parseArgs_step (mkMergeOptions (8 # 10) Solutions false) args.

End WithNumbers.

Section WithJson.
Context `{Js.Json}.

(** The interactive loop of [merge] once the console has ended: every
    prompt returns the empty text, so every remaining pair is printed and
    skipped. *)
Fixpoint skip_all (candidates : list MergeCandidate) (merged skipped : nat)
    : M (nat * nat) :=
  match candidates with
  | [] => ret (merged, skipped)
  | candidate :: rest =>
      printMergePair candidate ;;
      skip_all rest merged (S skipped)
  end.

(** The interactive loop of [merge].  [answers] holds what [promptUser]
    returns at each prompt (trimmed, in lower case) with the time of the
    prompt.  Every round prints the pair before it prompts, also the round
    that follows the answer [v].  The result is the pair of counters of the
    summary. *)
Fixpoint merge_loop (answers : list (string * Z)) (candidates : list MergeCandidate)
    (merged skipped : nat) : M (nat * nat) :=
  match answers with
  | [] => skip_all candidates merged skipped
  | (answer, now) :: answers' =>
      match candidates with
      | [] => ret (merged, skipped)
      | candidate :: rest =>
          printMergePair candidate ;;
          if String.eqb answer "q" then ret (merged, skipped)
          else if String.eqb answer "y" then
            executeMerge (keeper candidate) (removed candidate) now ;;
            merge_loop answers' rest (S merged) skipped
          else if String.eqb answer "v" then
            merge_loop answers' candidates merged skipped
          else merge_loop answers' rest merged (S skipped)
      end
  end.


End WithJson.

End Merge.

(* ===================================================================== *)
(** * The TypeScript parser: [parseFile]                                 *)
(* ===================================================================== *)

Module TsParser.
Import Eff.
Local Open Scope eff_scope.

Inductive SymbolKind :=
  | KFunction | KClass | KInterface | KType | KEnum
  | KConst | KVariable | KMethod | KProperty.

Record ExtractedSymbol := mkSymbol {
  name : string;
  kind : SymbolKind;
  line : Z;
  column : Z;
  endLine : option Z;
  exported : bool;
  isDefault : bool;
  scope : option string;
  signature : option string;
}.

Record ExtractedImport := mkImport {
  importedName : string;
  localName : option string;
  sourcePath : string;
  imp_isDefault : bool;
  isNamespace : bool;
  isType : bool;
  imp_line : Z;
}.

Record ParseResult := mkParseResult {
  symbols : list ExtractedSymbol;
  imports : list ExtractedImport;
  errors : option (list string);
}.

(** ** The syntax tree of the TypeScript compiler API

    The tree is a value handed over by the [typescript] library.  A node
    carries what the handlers read from it.  Where a handler calls into the
    library ([getStart], [getEnd], [getLineAndCharacterOfPosition],
    [getText]) the node holds the outcome of that call, which is a value or
    a throw with its message. *)

Abbreviation api := (result string).

Inductive ScriptKind := TS | TSX | JS | JSX.

Inductive Modifier := ExportKeyword | DefaultKeyword | OtherModifier.

Record LineAndCharacter := mkLineAndCharacter {
  lc_line : Z;
  lc_character : Z;
}.

(** What every declaration offers: [ts.getModifiers(node)] (empty when the
    node cannot have modifiers) and the positions of [node.getStart()] and
    [node.getEnd()] as [sourceFile.getLineAndCharacterOfPosition] maps them. *)
Record Header := mkHeader {
  modifiers : list Modifier;
  startPosition : api LineAndCharacter;
  endPosition : api LineAndCharacter;
}.

(** A property or binding name: an identifier or anything else (a string
    literal, a computed name, a private name, a binding pattern). *)
Inductive NameNode :=
  | Identifier (text : string)
  | OtherName.

Record ParameterDeclaration := mkParameter {
  param_name_getText : api string;
  param_questionToken : bool;
  param_type_getText : option (api string);
}.

Record FunctionLike := mkFunctionLike {
  parameters : list ParameterDeclaration;
  fn_type_getText : option (api string);
}.

Inductive Initializer :=
  | ArrowFunctionOrFunctionExpression (fn : FunctionLike)
  | OtherInitializer.

Record VariableDeclaration := mkVariableDeclaration {
  decl_name : NameNode;
  decl_start : api LineAndCharacter;
  decl_end : api LineAndCharacter;
  decl_initializer : option Initializer;
}.

Record ImportSpecifier := mkImportSpecifier {
  spec_propertyName : option string;
  spec_name : string;
  spec_isTypeOnly : bool;
}.

Inductive NamedBindings :=
  | NamespaceImport (name : string)
  | NamedImports (elements : list ImportSpecifier).

Record ImportClause := mkImportClause {
  clause_isTypeOnly : bool;
  clause_name : option string;
  clause_namedBindings : option NamedBindings;
}.

Inductive ModuleSpecifier :=
  | StringLiteral (text : string)
  | OtherExpression.

Inductive NodeData :=
  | FunctionDeclaration (name : option string) (hd : Header) (fn : FunctionLike)
  | ClassDeclaration (name : option string) (hd : Header)
  | InterfaceDeclaration (name : string) (hd : Header)
  | TypeAliasDeclaration (name : string) (hd : Header) (type_getText : api string)
  | EnumDeclaration (name : string) (hd : Header)
  | VariableStatement (hd : Header) (isConst : bool)
      (declarations : list VariableDeclaration)
  | MethodDeclaration (name : NameNode) (hd : Header) (fn : FunctionLike)
  | PropertyDeclaration (name : NameNode) (hd : Header)
      (type_getText : option (api string))
  | ImportDeclaration (moduleSpecifier : ModuleSpecifier) (hd : Header)
      (importClause : option ImportClause)
  | ExportDeclaration
  | ExportAssignment
  | OtherNode.

(** A node and the children [ts.forEachChild] enumerates. *)
#[warnings="-register-all"]
Inductive Node :=
  | mkNode (data : NodeData) (children : list Node).

Definition node_data (n : Node) : NodeData := let 'mkNode d _ := n in d.
Definition node_children (n : Node) : list Node := let 'mkNode _ c := n in c.

(** [ts.createSourceFile]; the result is the [SourceFile] node. *)
Class TypeScript := {
  createSourceFile : string → string → ScriptKind → api Node;
}.

(** The two arrays the handlers push to. *)
Record Output := mkOutput {
  out_symbols : list ExtractedSymbol;
  out_imports : list ExtractedImport;
}.

(** Handler code: pushes to the arrays and may throw a message. *)
Abbreviation P := (Eff.M Output string).

Definition push_symbol (s : ExtractedSymbol) : P unit :=
  modify (λ out, mkOutput (out_symbols out ++ [s]) (out_imports out)).

Definition push_import (i : ExtractedImport) : P unit :=
  modify (λ out, mkOutput (out_symbols out) (out_imports out ++ [i])).

Definition to_lower (c : Ascii.ascii) : Ascii.ascii :=
  let n := Ascii.nat_of_ascii c in
  if (65 <=? n)%nat && (n <=? 90)%nat then Ascii.ascii_of_nat (n + 32) else c.

(** [filePath.split('.').pop()?.toLowerCase()] *)
Fixpoint last_segment (s acc : string) : string :=
  match s with
  | EmptyString => acc
  | String c s' =>
      if Ascii.eqb c (Ascii.ascii_of_nat 46) then last_segment s' EmptyString
      else last_segment s' (String.append acc (String (to_lower c) EmptyString))
  end.

Definition getScriptKind (filePath : string) : ScriptKind :=
  let ext := last_segment filePath EmptyString in
  if String.eqb ext "ts" then TS
  else if String.eqb ext "tsx" then TSX
  else if String.eqb ext "js" || String.eqb ext "mjs" || String.eqb ext "cjs" then JS
  else if String.eqb ext "jsx" then JSX
  else TS.

Definition hasExportModifier (hd : Header) : bool :=
  existsb (λ m, if m is ExportKeyword then true else false) (modifiers hd).

Definition hasDefaultModifier (hd : Header) : bool :=
  existsb (λ m, if m is DefaultKeyword then true else false) (modifiers hd).

(** [getLocation(sourceFile, pos)]: the line becomes 1-indexed. *)
Definition getLocation (pos : api LineAndCharacter) : api LineAndCharacter :=
  rbind pos (λ lc, Ok (mkLineAndCharacter (lc_line lc + 1) (lc_character lc))).

Fixpoint join (sep : string) (parts : list string) : string :=
  match parts with
  | [] => EmptyString
  | [p] => p
  | p :: rest => String.append p (String.append sep (join sep rest))
  end.

Definition getFunctionSignature (node : FunctionLike) : api string :=
  rbind
    (rmap (λ p,
       rbind (param_name_getText p) (λ name,
       rbind (match param_type_getText p with
              | Some t => rbind t (λ text, Ok (String.append ": " text))
              | None => Ok EmptyString
              end) (λ type,
       let optional := if param_questionToken p then "?"%string else EmptyString in
       Ok (String.append name (String.append optional type)))))
       (parameters node))
    (λ params,
  rbind (match fn_type_getText node with
         | Some t => rbind t (λ text, Ok (String.append ": " text))
         | None => Ok EmptyString
         end)
    (λ returnType,
  Ok (String.append "(" (String.append (join ", " params) (String.append ")" returnType))))).

Definition handleFunctionDeclaration (name : option string) (hd : Header)
    (fn : FunctionLike) (scope : option string) : P unit :=
  match name with
  | None => ret ()
  | Some text =>
      let! loc := call (getLocation (startPosition hd)) in
      let! endLoc := call (getLocation (endPosition hd)) in
      let! signature := call (getFunctionSignature fn) in
      push_symbol (mkSymbol text KFunction (lc_line loc) (lc_character loc)
                     (Some (lc_line endLoc)) (hasExportModifier hd)
                     (hasDefaultModifier hd) scope (Some signature))
  end.

Definition handleClassDeclaration (name : option string) (hd : Header)
    (scope : option string) : P unit :=
  match name with
  | None => ret ()
  | Some text =>
      let! loc := call (getLocation (startPosition hd)) in
      let! endLoc := call (getLocation (endPosition hd)) in
      push_symbol (mkSymbol text KClass (lc_line loc) (lc_character loc)
                     (Some (lc_line endLoc)) (hasExportModifier hd)
                     (hasDefaultModifier hd) scope None)
  end.

Definition handleInterfaceDeclaration (name : string) (hd : Header)
    (scope : option string) : P unit :=
  let! loc := call (getLocation (startPosition hd)) in
  let! endLoc := call (getLocation (endPosition hd)) in
  push_symbol (mkSymbol name KInterface (lc_line loc) (lc_character loc)
                 (Some (lc_line endLoc)) (hasExportModifier hd) false scope None).

Definition handleTypeAliasDeclaration (name : string) (hd : Header)
    (type_getText : api string) (scope : option string) : P unit :=
  let! loc := call (getLocation (startPosition hd)) in
  let! endLoc := call (getLocation (endPosition hd)) in
  let! signature := call type_getText in
  push_symbol (mkSymbol name KType (lc_line loc) (lc_character loc)
                 (Some (lc_line endLoc)) (hasExportModifier hd) false scope
                 (Some signature)).

Definition handleEnumDeclaration (name : string) (hd : Header)
    (scope : option string) : P unit :=
  let! loc := call (getLocation (startPosition hd)) in
  let! endLoc := call (getLocation (endPosition hd)) in
  push_symbol (mkSymbol name KEnum (lc_line loc) (lc_character loc)
                 (Some (lc_line endLoc)) (hasExportModifier hd) false scope None).

Definition handleVariableStatement (hd : Header) (isConst : bool)
    (declarations : list VariableDeclaration) (scope : option string) : P unit :=
  let isExported := hasExportModifier hd in
  for_each (λ declaration,
    match decl_name declaration with
    | OtherName => ret ()
    | Identifier text =>
        let! loc := call (getLocation (decl_start declaration)) in
        let! endLoc := call (getLocation (decl_end declaration)) in
        let kind :=
          match decl_initializer declaration with
          | Some (ArrowFunctionOrFunctionExpression _) => KFunction
          | _ => if isConst then KConst else KVariable
          end in
        let! signature :=
          call (match decl_initializer declaration with
                | Some (ArrowFunctionOrFunctionExpression fn) =>
                    rbind (getFunctionSignature fn) (λ sig, Ok (Some sig))
                | _ => Ok None
                end) in
        push_symbol (mkSymbol text kind (lc_line loc) (lc_character loc)
                       (Some (lc_line endLoc)) isExported false scope signature)
    end) declarations.

Definition handleMethodDeclaration (name : NameNode) (hd : Header)
    (fn : FunctionLike) (scope : option string) : P unit :=
  match name with
  | OtherName => ret ()
  | Identifier text =>
      let! loc := call (getLocation (startPosition hd)) in
      let! endLoc := call (getLocation (endPosition hd)) in
      let! signature := call (getFunctionSignature fn) in
      push_symbol (mkSymbol text KMethod (lc_line loc) (lc_character loc)
                     (Some (lc_line endLoc)) false false scope (Some signature))
  end.

Definition handlePropertyDeclaration (name : NameNode) (hd : Header)
    (type_getText : option (api string)) (scope : option string) : P unit :=
  match name with
  | OtherName => ret ()
  | Identifier text =>
      let! loc := call (getLocation (startPosition hd)) in
      let! signature :=
        call (match type_getText with
              | Some t => rbind t (λ text, Ok (Some text))
              | None => Ok None
              end) in
      push_symbol (mkSymbol text KProperty (lc_line loc) (lc_character loc)
                     None false false scope signature)
  end.

Definition handleImportDeclaration (moduleSpecifier : ModuleSpecifier)
    (hd : Header) (importClause : option ImportClause) : P unit :=
  match moduleSpecifier with
  | OtherExpression => ret ()
  | StringLiteral sourcePath =>
      let! loc := call (getLocation (startPosition hd)) in
      let isTypeOnly := if importClause is Some c then clause_isTypeOnly c else false in
      match importClause with
      | None =>
          push_import (mkImport "*" None sourcePath false false false (lc_line loc))
      | Some importClause =>
          (match clause_name importClause with
           | Some text =>
               push_import (mkImport text None sourcePath true false isTypeOnly
                              (lc_line loc))
           | None => ret ()
           end) ;;
          match clause_namedBindings importClause with
          | Some (NamespaceImport text) =>
              push_import (mkImport text None sourcePath false true isTypeOnly
                             (lc_line loc))
          | Some (NamedImports elements) =>
              for_each (λ element,
                let isTypeImport := isTypeOnly || spec_isTypeOnly element in
                push_import
                  (mkImport
                     (default (spec_name element) (spec_propertyName element))
                     (if spec_propertyName element is Some _
                      then Some (spec_name element) else None)
                     sourcePath false false isTypeImport (lc_line loc)))
                elements
          | None => ret ()
          end
      end
  end.

(** Re-exports and [export default] expressions add no symbol. *)
Definition handleExportDeclaration : P unit := ret ().
Definition handleExportAssignment : P unit := ret ().

(** The chain of [if (ts.is...(node))] tests of [visit]. *)
Definition handle (data : NodeData) (parentScope : option string) : P unit :=
  match data with
  | FunctionDeclaration name hd fn => handleFunctionDeclaration name hd fn parentScope
  | ClassDeclaration name hd => handleClassDeclaration name hd parentScope
  | InterfaceDeclaration name hd => handleInterfaceDeclaration name hd parentScope
  | TypeAliasDeclaration name hd ty => handleTypeAliasDeclaration name hd ty parentScope
  | EnumDeclaration name hd => handleEnumDeclaration name hd parentScope
  | VariableStatement hd isConst ds => handleVariableStatement hd isConst ds parentScope
  | MethodDeclaration name hd fn => handleMethodDeclaration name hd fn parentScope
  | PropertyDeclaration name hd ty => handlePropertyDeclaration name hd ty parentScope
  | ImportDeclaration spec hd clause => handleImportDeclaration spec hd clause
  | ExportDeclaration => handleExportDeclaration
  | ExportAssignment => handleExportAssignment
  | OtherNode => ret ()
  end.

(** The scope handed to the children: the members of a class are visited
    with the class name ([node.name?.text]), everything else with the scope
    of its parent. *)
Definition child_scope (data : NodeData) (parentScope : option string) : option string :=
  match data with
  | ClassDeclaration name _ => name
  | _ => parentScope
  end.

(** [visit]: the handler for the node, then the children.  The whole body is
    inside [try { ... } catch { }]: a throw of the handler ends the visit of
    this node (its children are not visited) and is swallowed; what was
    pushed before stays. *)
Fixpoint visit (node : Node) (parentScope : option string) (out : Output) : Output :=
  let 'mkNode data children := node in
  match handle data parentScope out with
  | (Ok _, out') =>
      foldl (λ o child, visit child (child_scope data parentScope) o) out' children
  | (Err _, out') => out'
  end.

(** [ts.forEachChild(node, child => visit(child, scope))] *)
Definition visit_children (scope : option string) (children : list Node)
    (out : Output) : Output :=
  foldl (λ o child, visit child scope o) out children.

Definition empty_output : Output := mkOutput [] [].

Definition out_app (o1 o2 : Output) : Output :=
  mkOutput (out_symbols o1 ++ out_symbols o2) (out_imports o1 ++ out_imports o2).

(** What the handler of a node pushes, also when it throws on the way. *)
Definition pushed (data : NodeData) (scope : option string) : Output :=
  (handle data scope empty_output).2.

(** The nodes [visit] gets to, with the scope it visits them in: the root,
    and the children of a node it got to whose handler did not throw. *)
Inductive reached (root : Node) (rootScope : option string)
    : Node → option string → Prop :=
  | reached_root : reached root rootScope root rootScope
  | reached_child data children scope child u out :
      reached root rootScope (mkNode data children) scope →
      handle data scope empty_output = (Ok u, out) →
      child ∈ children →
      reached root rootScope child (child_scope data scope).

(** The nodes of a tree, a node before its descendants. *)
Fixpoint nodes (n : Node) : list Node :=
  let 'mkNode _ children := n in
  n :: flat_map nodes children.

(** The calls into the library made for a variable declaration return. *)
Definition variable_returns (d : VariableDeclaration) : Prop :=
  match decl_name d with
  | OtherName => True
  | Identifier _ =>
      (∃ loc, decl_start d = Ok loc)
      ∧ (∃ endLoc, decl_end d = Ok endLoc)
      ∧ match decl_initializer d with
        | Some (ArrowFunctionOrFunctionExpression fn) =>
            ∃ sig, getFunctionSignature fn = Ok sig
        | _ => True
        end
  end.

(** The symbol a well-formed declaration stands for: its name, its kind,
    its line span with 1-indexed lines, its export flags, the enclosing
    scope and its signature text.  Well-formed means that the calls into the
    library made for the declaration return.  In a variable statement the
    declarations are taken one after the other, so those before the
    declaration have to be well-formed too. *)
Inductive declares (scope : option string) : NodeData → ExtractedSymbol → Prop :=
  | declares_function text hd fn loc endLoc sig :
      startPosition hd = Ok loc → endPosition hd = Ok endLoc →
      getFunctionSignature fn = Ok sig →
      declares scope (FunctionDeclaration (Some text) hd fn)
        (mkSymbol text KFunction (lc_line loc + 1) (lc_character loc)
           (Some (lc_line endLoc + 1)) (hasExportModifier hd)
           (hasDefaultModifier hd) scope (Some sig))
  | declares_class text hd loc endLoc :
      startPosition hd = Ok loc → endPosition hd = Ok endLoc →
      declares scope (ClassDeclaration (Some text) hd)
        (mkSymbol text KClass (lc_line loc + 1) (lc_character loc)
           (Some (lc_line endLoc + 1)) (hasExportModifier hd)
           (hasDefaultModifier hd) scope None)
  | declares_interface text hd loc endLoc :
      startPosition hd = Ok loc → endPosition hd = Ok endLoc →
      declares scope (InterfaceDeclaration text hd)
        (mkSymbol text KInterface (lc_line loc + 1) (lc_character loc)
           (Some (lc_line endLoc + 1)) (hasExportModifier hd) false scope None)
  | declares_type text hd ty loc endLoc sig :
      startPosition hd = Ok loc → endPosition hd = Ok endLoc → ty = Ok sig →
      declares scope (TypeAliasDeclaration text hd ty)
        (mkSymbol text KType (lc_line loc + 1) (lc_character loc)
           (Some (lc_line endLoc + 1)) (hasExportModifier hd) false scope
           (Some sig))
  | declares_enum text hd loc endLoc :
      startPosition hd = Ok loc → endPosition hd = Ok endLoc →
      declares scope (EnumDeclaration text hd)
        (mkSymbol text KEnum (lc_line loc + 1) (lc_character loc)
           (Some (lc_line endLoc + 1)) (hasExportModifier hd) false scope None)
  | declares_variable_function hd isConst pre d post text loc endLoc fn sig :
      Forall variable_returns pre →
      decl_name d = Identifier text →
      decl_start d = Ok loc → decl_end d = Ok endLoc →
      decl_initializer d = Some (ArrowFunctionOrFunctionExpression fn) →
      getFunctionSignature fn = Ok sig →
      declares scope (VariableStatement hd isConst (pre ++ d :: post))
        (mkSymbol text KFunction (lc_line loc + 1) (lc_character loc)
           (Some (lc_line endLoc + 1)) (hasExportModifier hd) false scope
           (Some sig))
  | declares_variable hd isConst pre d post text loc endLoc :
      Forall variable_returns pre →
      decl_name d = Identifier text →
      decl_start d = Ok loc → decl_end d = Ok endLoc →
      decl_initializer d = None ∨ decl_initializer d = Some OtherInitializer →
      declares scope (VariableStatement hd isConst (pre ++ d :: post))
        (mkSymbol text (if isConst then KConst else KVariable)
           (lc_line loc + 1) (lc_character loc)
           (Some (lc_line endLoc + 1)) (hasExportModifier hd) false scope None)
  | declares_method text hd fn loc endLoc sig :
      startPosition hd = Ok loc → endPosition hd = Ok endLoc →
      getFunctionSignature fn = Ok sig →
      declares scope (MethodDeclaration (Identifier text) hd fn)
        (mkSymbol text KMethod (lc_line loc + 1) (lc_character loc)
           (Some (lc_line endLoc + 1)) false false scope (Some sig))
  | declares_property text hd loc :
      startPosition hd = Ok loc →
      declares scope (PropertyDeclaration (Identifier text) hd None)
        (mkSymbol text KProperty (lc_line loc + 1) (lc_character loc)
           None false false scope None)
  | declares_typed_property text hd loc sig :
      startPosition hd = Ok loc →
      declares scope (PropertyDeclaration (Identifier text) hd (Some (Ok sig)))
        (mkSymbol text KProperty (lc_line loc + 1) (lc_character loc)
           None false false scope (Some sig)).

(** The imports a well-formed import declaration stands for: the whole
    module for a bare import, the default binding, the namespace binding
    and every named binding with its alias. *)
Inductive declares_import : NodeData → ExtractedImport → Prop :=
  | declares_bare_import source hd loc :
      startPosition hd = Ok loc →
      declares_import (ImportDeclaration (StringLiteral source) hd None)
        (mkImport "*" None source false false false (lc_line loc + 1))
  | declares_default_import source hd clause text loc :
      startPosition hd = Ok loc →
      clause_name clause = Some text →
      declares_import (ImportDeclaration (StringLiteral source) hd (Some clause))
        (mkImport text None source true false (clause_isTypeOnly clause)
           (lc_line loc + 1))
  | declares_namespace_import source hd clause text loc :
      startPosition hd = Ok loc →
      clause_namedBindings clause = Some (NamespaceImport text) →
      declares_import (ImportDeclaration (StringLiteral source) hd (Some clause))
        (mkImport text None source false true (clause_isTypeOnly clause)
           (lc_line loc + 1))
  | declares_named_import source hd clause elements element loc :
      startPosition hd = Ok loc →
      clause_namedBindings clause = Some (NamedImports elements) →
      element ∈ elements →
      declares_import (ImportDeclaration (StringLiteral source) hd (Some clause))
        (mkImport
           (match spec_propertyName element with
            | Some original => original
            | None => spec_name element
            end)
           (match spec_propertyName element with
            | Some _ => Some (spec_name element)
            | None => None
            end)
           source false false
           (clause_isTypeOnly clause || spec_isTypeOnly element)
           (lc_line loc + 1)).

(** Handler code only appends: its outcome and what it pushes do not
    depend on what the arrays already hold. *)
Definition appends {A} (m : P A) : Prop :=
  ∀ out, m out = ((m empty_output).1, out_app out (m empty_output).2).

(** Handler code keeps a property of the arrays. *)
Definition keeps (Q : Output → Prop) {A} (m : P A) : Prop :=
  ∀ out, Q out → Q (m out).2.

(** Everything [o1] holds occurs in [o2], in the same order. *)
Definition out_sub (o1 o2 : Output) : Prop :=
  out_symbols o1 `sublist_of` out_symbols o2
  ∧ out_imports o1 `sublist_of` out_imports o2.

(** A member symbol does not carry the export flags. *)
Definition member_not_exported (s : ExtractedSymbol) : Prop :=
  kind s = KMethod ∨ kind s = KProperty → exported s = false ∧ isDefault s = false.

Definition members_ok (out : Output) : Prop :=
  Forall member_not_exported (out_symbols out).

(** How the fields of a symbol go with its kind. *)
Definition symbol_shape (s : ExtractedSymbol) : Prop :=
  (isDefault s = true → kind s = KFunction ∨ kind s = KClass)
  ∧ (endLine s = None ↔ kind s = KProperty)
  ∧ (kind s = KClass ∨ kind s = KInterface ∨ kind s = KEnum
     ∨ kind s = KConst ∨ kind s = KVariable → signature s = None)
  ∧ (kind s = KFunction ∨ kind s = KMethod ∨ kind s = KType →
     is_Some (signature s)).

(** How the flags of an import go together. *)
Definition import_shape (i : ExtractedImport) : Prop :=
  (imp_isDefault i = true → isNamespace i = false)
  ∧ (is_Some (localName i) → imp_isDefault i = false ∧ isNamespace i = false).

(** Every symbol and every import of the arrays has a given property. *)
Definition all_ok (Ps : ExtractedSymbol → Prop) (Pi : ExtractedImport → Prop)
    (out : Output) : Prop :=
  Forall Ps (out_symbols out) ∧ Forall Pi (out_imports out).

(** The names of the class declarations of a tree. *)
Fixpoint class_names (n : Node) : list string :=
  let 'mkNode data children := n in
  (match data with
   | ClassDeclaration (Some name) _ => [name]
   | _ => []
   end) ++ flat_map class_names children.

(** A scope is absent or one of [names]. *)
Definition scope_among (names : list string) (scope : option string) : Prop :=
  match scope with
  | None => True
  | Some name => name ∈ names
  end.

Section WithTypeScript.
Context `{TypeScript}.

Definition parseFile (filePath content : string) : ParseResult :=
  let scriptKind := getScriptKind filePath in
  match createSourceFile filePath content scriptKind with
  | Err message =>
      mkParseResult [] [] (Some [String.append "Parse error: " message])
  | Ok sourceFile =>
      let out := visit sourceFile None empty_output in
      mkParseResult (out_symbols out) (out_imports out) None
  end.

Definition extractSymbols (filePath content : string) : list ExtractedSymbol :=
  symbols (parseFile filePath content).

Definition extractImports (filePath content : string) : list ExtractedImport :=
  imports (parseFile filePath content).

End WithTypeScript.
End TsParser.

(* ===================================================================== *)
(** * The file scanner: [isExcluded] and [scanRepository]                *)
(* ===================================================================== *)

Module Scanner.

Definition EXTENSIONS : list string :=
  ["ts"; "tsx"; "js"; "jsx"; "mjs"; "mts"; "cts"; "cjs"]%string.

Definition DEFAULT_EXCLUDES : list string :=
  ["node_modules"; "dist"; "build"; ".git"; "coverage"; ".next"; ".nuxt";
   ".output"; ".cache"; "__pycache__"; "vendor"; ".turbo"; ".vercel"]%string.

(** What the scanner takes from the runtime: the regular expression engine
    ([new RegExp(source).test(text)], [None] when the source is rejected
    with a SyntaxError), the glob scan, [stat] ([None] when it throws) and
    [path.join]. *)
Record Stats := mkStats {
  size : Z;
  mtimeMs : Q;
}.

Class Runtime := {
  regexp_test : string → string → option bool;
  glob_scan : string → string → list string;
  stat : string → option Stats;
  path_join : string → string → string;
}.

(** [s.replace(/pat/g, by)] for a literal, non-empty [pat]: the matches are
    taken from left to right and do not overlap.  [skip] counts the
    characters of a match still to pass over. *)
Fixpoint replace_from (pat by_ : string) (skip : nat) (s : string) : string :=
  match s with
  | EmptyString => EmptyString
  | String c s' =>
      match skip with
      | S k => replace_from pat by_ k s'
      | O =>
          if String.prefix pat s
          then String.append by_ (replace_from pat by_ (String.length pat - 1) s')
          else String c (replace_from pat by_ 0 s')
      end
  end.

Definition replace_all (pat by_ s : string) : string := replace_from pat by_ 0 s.

(** [dir => pathParts.includes(dir)] over [DEFAULT_EXCLUDES] *)
Definition in_excluded_directory (filePath : string) : bool :=
  let pathParts := Js.split (Ascii.ascii_of_nat 47) filePath in
  existsb (λ dir, bool_decide (dir ∈ pathParts)) DEFAULT_EXCLUDES.

(** The three literal expressions of [isExcluded]; each ends in [$], so it
    tests for one of finitely many endings. *)
Definition declaration_endings : list string :=
  [".d.ts"; ".d.mts"; ".d.cts"]%string.

Definition test_endings : list string :=
  [".test.ts"; ".test.tsx"; ".test.js"; ".test.jsx";
   ".spec.ts"; ".spec.tsx"; ".spec.js"; ".spec.jsx"]%string.

Definition minified_endings : list string :=
  [".min.js"; ".min.ts"; ".bundle.js"; ".bundle.ts"]%string.

Definition is_declaration_file (filePath : string) : bool :=
  existsb (λ e, Js.endsWith e filePath) declaration_endings.

Definition is_test_file (filePath : string) : bool :=
  existsb (λ e, Js.endsWith e filePath) test_endings.

Definition is_minified_file (filePath : string) : bool :=
  existsb (λ e, Js.endsWith e filePath) minified_endings.

(** The conversion of a glob in [isExcluded]. *)
Definition glob_source (pattern : string) : string :=
  replace_all "*" "[^/]*"
    (replace_all "**" ".*"
       (replace_all "." (String (Ascii.ascii_of_nat 92) ".") pattern)).

(** The conversion of a glob in [scanRepository], with its placeholder. *)
Definition glob_source_scan (excludePattern : string) : string :=
  replace_all "___DOUBLESTAR___" ".*"
    (replace_all "*" "[^/]*"
       (replace_all "**" "___DOUBLESTAR___"
          (replace_all "." (String (Ascii.ascii_of_nat 92) ".") excludePattern))).

Section WithRuntime.
Context `{Runtime}.

(** The loop over the custom patterns of [isExcluded]; [None] is a throw. *)
Fixpoint matches_custom (filePath : string) (excludePatterns : list string)
    : option bool :=
  match excludePatterns with
  | [] => Some false
  | pattern :: rest =>
      if Js.includes "*" pattern then
        match regexp_test (glob_source pattern) filePath with
        | None => None
        | Some true => Some true
        | Some false => matches_custom filePath rest
        end
      else if Js.includes pattern filePath then Some true
      else matches_custom filePath rest
  end.

Definition isExcluded (filePath : string) (excludePatterns : list string)
    : option bool :=
  if in_excluded_directory filePath then Some true
  else if is_declaration_file filePath then Some true
  else if is_test_file filePath then Some true
  else if is_minified_file filePath then Some true
  else matches_custom filePath excludePatterns.

Record ScanOptions := mkScanOptions {
  repoRoot : string;
  excludePatterns : list string;
  maxFileSize : Z;
  includeTests : bool;
}.

(** The exclusion list [scanRepository] builds. *)
Definition allExcludes (options : ScanOptions) : list string :=
  (map (λ dir, String.append "**/" (String.append dir "/**")) DEFAULT_EXCLUDES
   ++ excludePatterns options)
  ++ (if includeTests options then []
      else ["**/*.test.ts"; "**/*.test.tsx"; "**/*.test.js"; "**/*.test.jsx";
            "**/*.spec.ts"; "**/*.spec.tsx"; "**/*.spec.js"; "**/*.spec.jsx";
            "**/__tests__/**"; "**/__mocks__/**"]%string)
  ++ ["**/*.d.ts"; "**/*.d.mts"; "**/*.d.cts"]%string.

(** [allExcludes.some(...)]: [None] is a throw of [new RegExp]. *)
Fixpoint some_excludes (filePath : string) (excludes : list string) : option bool :=
  match excludes with
  | [] => Some false
  | excludePattern :: rest =>
      if Js.includes "*" excludePattern then
        match regexp_test
                (String.append "^" (String.append (glob_source_scan excludePattern) "$"))
                filePath with
        | None => None
        | Some true => Some true
        | Some false => some_excludes filePath rest
        end
      else if Js.includes excludePattern filePath then Some true
      else some_excludes filePath rest
  end.

(** The body of the loop over the scanned paths: the files pushed so far,
    or [None] when the call is rejected. *)
Fixpoint scan_loop (options : ScanOptions) (paths : list string)
    (files : list Indexer.ScannedFile) : option (list Indexer.ScannedFile) :=
  match paths with
  | [] => Some files
  | filePath :: rest =>
      if in_excluded_directory filePath then scan_loop options rest files
      else
        match some_excludes filePath (allExcludes options) with
        | None => None
        | Some true => scan_loop options rest files
        | Some false =>
            let absolutePath := path_join (repoRoot options) filePath in
            match stat absolutePath with
            | None => scan_loop options rest files
            | Some stats =>
                if bool_decide (maxFileSize options < size stats)
                then scan_loop options rest files
                else
                  scan_loop options rest
                    (files ++ [Indexer.mkScannedFile filePath absolutePath
                                 (Qfloor (mtimeMs stats))])
            end
        end
  end.

(** The glob of the supported extensions. *)
Definition glob_pattern : string :=
  String.append "**/*.{" (String.append (Js.join "," EXTENSIONS) "}").

Definition scanRepository (options : ScanOptions) : option (list Indexer.ScannedFile) :=
  scan_loop options (glob_scan glob_pattern (repoRoot options)) [].

(** What the loop asks of a path before it pushes a file, and the file it
    pushes then. *)
Definition accepted (options : ScanOptions) (filePath : string) (stats : Stats) : Prop :=
  in_excluded_directory filePath = false
  ∧ some_excludes filePath (allExcludes options) = Some false
  ∧ stat (path_join (repoRoot options) filePath) = Some stats
  ∧ size stats ≤ maxFileSize options.

Definition scanned (options : ScanOptions) (filePath : string) (stats : Stats)
    : Indexer.ScannedFile :=
  Indexer.mkScannedFile filePath (path_join (repoRoot options) filePath)
    (Qfloor (mtimeMs stats)).

End WithRuntime.
End Scanner.

(* ===================================================================== *)
(** * Test doubles                                                        *)
(* ===================================================================== *)

(** Stand-ins for the helpers, in the manner of [mockEmbedding] of the
    repository's tests: a table for the embedding model, four bytes per
    (small, natural) component for the blob, and a cosine that is exact on
    vectors whose norms are rational. *)
Module Mock.
Import Db.

Definition unit_vector : Embedding := 1%Q :: replicate 383 0%Q.
Definition near_vector : Embedding := 40%Q :: 9%Q :: replicate 382 0%Q.
Definition far_vector : Embedding := 0%Q :: 1%Q :: replicate 382 0%Q.
Definition short_vector : Embedding := [1%Q; 0%Q].

Definition mock_getEmbedding (text : string) : option Embedding :=
  if String.eqb text "OAuth with Google auth" then Some unit_vector
  else if String.eqb text "OAuth integration with Google" then Some near_vector
  else if String.eqb text "Rate limit the API" then Some far_vector
  else None.

Definition encode_component (q : Q) : list Z :=
  let n := Qfloor q in
  [n mod 256; (n / 256) mod 256; (n / 65536) mod 256; (n / 16777216) mod 256].

Definition mock_embeddingToBuffer (e : Embedding) : Blob :=
  flat_map encode_component e.

Fixpoint mock_bufferToEmbedding (b : Blob) : option Embedding :=
  match b with
  | [] => Some []
  | b0 :: b1 :: b2 :: b3 :: rest =>
      match mock_bufferToEmbedding rest with
      | Some e => Some (inject_Z (b0 + 256 * b1 + 65536 * b2 + 16777216 * b3) :: e)
      | None => None
      end
  | _ => None
  end.

Definition dot (a b : Embedding) : Q :=
  foldr Qplus 0%Q (zip_with Qmult a b).

Definition sqrt_exact (q : Q) : Q := (Z.sqrt (Qnum q) # Pos.sqrt (Qden q))%Q.

Definition mock_cosineSimilarity (a b : Embedding) : option Q :=
  if negb (length a =? length b)%nat then None
  else
    let n := (dot a a * dot b b)%Q in
    if Qeq_bool n 0 then Some 0%Q
    else Some (Qred (dot a b / sqrt_exact n))%Q.

Global Instance mock_helpers : Helpers := {|
  getEmbedding := mock_getEmbedding;
  embeddingToBuffer := mock_embeddingToBuffer;
  bufferToEmbedding := mock_bufferToEmbedding;
  cosineSimilarity := mock_cosineSimilarity;
|}.

Definition sample_row (problem : string) (e : Embedding) (uses successes : Z)
    (tags : list string) : SolutionRow :=
  mkSolutionRow "repo_1" problem (mock_embeddingToBuffer e) "use passport.js"
    ScopeGlobal [] (TagsJson tags) (1 # 2) uses successes 0 0 None 1 [] [] [] [] None 100 100.

(** A store holding one solution. *)
Definition one_solution : State :=
  mkState {[ "sol_0000000a"%string :=
               sample_row "OAuth integration with Google" near_vector 3 2 ["auth"%string] ]}
          [].

(** A store holding three solutions; the third has a blob of the wrong
    length. *)
Definition three_solutions : State :=
  mkState
    (<["sol_0000000a"%string :=
         sample_row "OAuth integration with Google" near_vector 3 2 ["auth"; "oauth"]%string]>
     (<["sol_0000000b"%string :=
         sample_row "OAuth with Google auth" unit_vector 5 1 ["oauth"; "google"]%string]>
     (<["sol_0000000c"%string :=
         sample_row "Short blob" short_vector 1 0 []]> ∅)))
    [].

Definition sol_a : Merge.Solution :=
  Merge.to_solution ("sol_0000000a"%string,
    sample_row "OAuth integration with Google" near_vector 3 2 ["auth"; "oauth"]%string).
Definition sol_b : Merge.Solution :=
  Merge.to_solution ("sol_0000000b"%string,
    sample_row "OAuth with Google auth" unit_vector 5 1 ["oauth"; "google"]%string).
Definition sol_c : Merge.Solution :=
  Merge.to_solution ("sol_0000000c"%string, sample_row "Short blob" short_vector 1 0 []).

Definition mock_parseFloat (text : string) : option Q :=
  if String.eqb text "0.9" then Some (9 # 10)%Q
  else if String.eqb text "0" then Some 0%Q
  else if String.eqb text "1" then Some 1%Q
  else None.

Global Instance mock_numbers : Js.Numbers := {|
  Js.parseFloat := mock_parseFloat;
|}.

(** A [JSON.parse] that knows the empty array and rejects everything else. *)
Definition mock_JSON_parse (text : string) : option (list string) :=
  if String.eqb text "[]" then Some [] else None.

Global Instance mock_json : Js.Json := {|
  Js.JSON_parse := mock_JSON_parse;
|}.

(** The three solutions after [matrix edit sol_0000000a --field=tags
    --value=auth,oauth]: the tags of the first are a text that is no JSON. *)
Definition edited_row : SolutionRow :=
  mkSolutionRow "repo_1" "OAuth integration with Google"
    (mock_embeddingToBuffer near_vector) "use passport.js"
    ScopeGlobal [] (TagsText "auth,oauth") (1 # 2) 3 2 0 0 None 1 [] [] [] [] None
    100 100.

Definition edited_solutions : State :=
  mkState (<["sol_0000000a"%string := edited_row]> (solutions three_solutions)) [].

Definition sol_a_edited : Merge.Solution :=
  Merge.to_solution ("sol_0000000a"%string, edited_row).

Definition sample_env : Store.CallEnv :=
  Store.mkCallEnv "3f2a9c1e-7b4d-4e2a-9c1e-0123456789ab" "repo_1" 200.

Definition sample_input (problem : string) (supersedes : option string)
    : Store.StoreInput :=
  Store.mkStoreInput problem "use passport.js" ScopeGlobal (Some ["auth"%string])
    None None None None None None None supersedes.

(** [export class Repo { find(id: string): Row {} rows: Row[] }] followed
    by a function whose position lookup throws and by [import fs from 'fs']. *)
Definition at_line (l c : Z) : TsParser.api TsParser.LineAndCharacter :=
  Eff.Ok (TsParser.mkLineAndCharacter l c).

Definition class_tree : TsParser.Node :=
  TsParser.mkNode TsParser.OtherNode
    [ TsParser.mkNode
        (TsParser.ClassDeclaration (Some "Repo"%string)
           (TsParser.mkHeader [TsParser.ExportKeyword] (at_line 0 0) (at_line 3 1)))
        [ TsParser.mkNode
            (TsParser.MethodDeclaration (TsParser.Identifier "find")
               (TsParser.mkHeader [] (at_line 1 2) (at_line 1 30))
               (TsParser.mkFunctionLike
                  [TsParser.mkParameter (Eff.Ok "id"%string) false
                     (Some (Eff.Ok "string"%string))]
                  (Some (Eff.Ok "Row"%string))))
            [];
          TsParser.mkNode
            (TsParser.PropertyDeclaration (TsParser.Identifier "rows")
               (TsParser.mkHeader [] (at_line 2 2) (at_line 2 14))
               (Some (Eff.Ok "Row[]"%string)))
            [] ];
      TsParser.mkNode
        (TsParser.FunctionDeclaration (Some "broken"%string)
           (TsParser.mkHeader [] (Eff.Err "Debug Failure."%string) (at_line 6 1))
           (TsParser.mkFunctionLike [] None))
        [ TsParser.mkNode
            (TsParser.FunctionDeclaration (Some "inner"%string)
               (TsParser.mkHeader [] (at_line 5 2) (at_line 5 20))
               (TsParser.mkFunctionLike [] None))
            [] ];
      TsParser.mkNode
        (TsParser.ImportDeclaration (TsParser.StringLiteral "fs")
           (TsParser.mkHeader [] (at_line 7 0) (at_line 7 20))
           (Some (TsParser.mkImportClause false (Some "fs"%string) None)))
        [] ].

Definition mock_createSourceFile (filePath content : string)
    (kind : TsParser.ScriptKind) : TsParser.api TsParser.Node :=
  if String.eqb content "class" then Eff.Ok class_tree
  else if String.eqb content "" then Eff.Ok (TsParser.mkNode TsParser.OtherNode [])
  else Eff.Err "Maximum call stack size exceeded"%string.

Global Instance mock_typescript : TsParser.TypeScript := {|
  TsParser.createSourceFile := mock_createSourceFile;
|}.

(** A repository of six paths, of which one is gone and one is large, and
    an expression engine that knows the declaration-file exclusion and
    rejects an unbalanced parenthesis. *)
Definition mock_regexp_test (source text : string) : option bool :=
  if String.eqb source "(" then None
  else Some (String.eqb source "^.*/[^/]*\.d\.ts$" && Js.endsWith ".d.ts" text).

Definition mock_glob_scan (pattern cwd : string) : list string :=
  if String.eqb cwd "/repo"
  then ["src/a.ts"; "node_modules/x/index.js"; "src/types.d.ts"; "src/big.ts";
        "src/gone.ts"; "lib/b.js"]%string
  else [].

Definition mock_stat (absolutePath : string) : option Scanner.Stats :=
  if String.eqb absolutePath "/repo/src/a.ts"
  then Some (Scanner.mkStats 120 (17000000001237 # 10))
  else if String.eqb absolutePath "/repo/src/big.ts"
  then Some (Scanner.mkStats 2000000 (1700000000000 # 1))
  else if String.eqb absolutePath "/repo/lib/b.js"
  then Some (Scanner.mkStats 10 (5 # 1))
  else None.

Global Instance mock_runtime : Scanner.Runtime := {|
  Scanner.regexp_test := mock_regexp_test;
  Scanner.glob_scan := mock_glob_scan;
  Scanner.stat := mock_stat;
  Scanner.path_join := λ root p, String.append root (String.append "/" p);
|}.

Definition sample_options : Scanner.ScanOptions :=
  Scanner.mkScanOptions "/repo" ["fixtures"%string] 1048576 false.

End Mock.

(* ===================================================================== *)
(** * Properties of the descending sort                                  *)
(* ===================================================================== *)

Module SortProofs.
Import Db.

Section Sort.
Context {A : Type} (key : A → Q).

Lemma insert_desc_perm x l : insert_desc key x l ≡ₚ x :: l.
Proof.
  induction l as [|y l IH]; simpl; [done|].
  destruct (Qle_bool (key y) (key x)); [done|].
  rewrite IH. apply Permutation_swap.
Qed.

Lemma sort_desc_perm l : sort_desc key l ≡ₚ l.
Proof.
  induction l as [|x l IH]; simpl; [done|].
  unfold sort_desc in *. simpl. rewrite insert_desc_perm. by f_equiv.
Qed.

Lemma elem_of_sort_desc x l : x ∈ sort_desc key l ↔ x ∈ l.
Proof. by rewrite sort_desc_perm. Qed.

Lemma insert_desc_sorted x l :
  descending key l → descending key (insert_desc key x l).
Proof.
  unfold descending. induction l as [|y l IH]; intros Hs; simpl.
  - repeat constructor.
  - apply StronglySorted_inv in Hs as [Hl Hy].
    destruct (Qle_bool (key y) (key x)) eqn:E.
    + apply Qle_bool_iff in E. constructor; [by constructor|].
      constructor; [done|].
      eapply Forall_impl; [exact Hy|]. intros z Hz. simpl in Hz.
      by apply Qle_trans with (key y).
    + assert (Hlt : (key x <= key y)%Q).
      { apply Qlt_le_weak, Qnot_le_lt. intros Hle.
        apply Qle_bool_iff in Hle. congruence. }
      constructor; [by apply IH|].
      rewrite insert_desc_perm. by constructor.
Qed.

Lemma sort_desc_sorted l : descending key (sort_desc key l).
Proof.
  induction l as [|x l IH]; simpl; [constructor|].
  by apply insert_desc_sorted.
Qed.

(** The head of a descending list is a maximum. *)
Lemma descending_head m l x :
  descending key (m :: l) → x ∈ m :: l → (key x <= key m)%Q.
Proof.
  intros Hs Hx. apply StronglySorted_inv in Hs as [_ Hall].
  apply elem_of_cons in Hx as [->|Hx]; [apply Qle_refl|].
  rewrite Forall_forall in Hall. by apply Hall.
Qed.

(** Stability: among equal keys the order of the input is kept. *)
Lemma insert_desc_ties x l :
  Forall (λ y, (key y <= key x)%Q) l → insert_desc key x l = x :: l.
Proof.
  destruct l as [|y l]; [done|]. intros Hall. simpl.
  apply Forall_cons in Hall as [Hy _].
  apply Qle_bool_iff in Hy. by rewrite Hy.
Qed.

(** A stable sort leaves a list that is already in order as it is. *)
Lemma sort_desc_id l : descending key l → sort_desc key l = l.
Proof.
  unfold descending. induction 1 as [|x l Hl IH Hx]; [done|].
  change (sort_desc key (x :: l)) with (insert_desc key x (sort_desc key l)).
  rewrite IH. by apply insert_desc_ties.
Qed.

End Sort.
End SortProofs.

(* ===================================================================== *)
(** * Properties of [computeDiff]                                         *)
(* ===================================================================== *)

Module IndexerProofs.
Import Indexer.

(** The first loop is two filters and the set of scanned paths. *)
Lemma loop_filters ix scanned st :
  foldl (loop_body ix) st scanned =
  mkDiffLoop (acc_added st ++ filter (is_added ix) scanned)
             (acc_modified st ++ filter (is_modified ix) scanned)
             (list_to_set (path <$> scanned) ∪ seenPaths st).
Proof.
  revert st. induction scanned as [|f scanned IH]; intros st.
  - destruct st as [a m s]; simpl. rewrite !app_nil_r. f_equal. set_solver.
  - simpl. rewrite IH. unfold loop_body, is_added, is_modified. simpl.
    destruct (ix !! path f) as [row|] eqn:E; simpl.
    + rewrite (filter_cons_False (λ f, ix !! path f = None)) by (rewrite E; done).
      case_bool_decide as Hlt.
      * rewrite filter_cons_True by eauto. simpl.
        rewrite <- app_assoc. simpl. f_equal. set_solver.
      * rewrite filter_cons_False by (intros (r & Hr & Hr'); simplify_eq; lia).
        f_equal. set_solver.
    + rewrite (filter_cons_True (λ f, ix !! path f = None)) by done.
      rewrite filter_cons_False by (intros (r & Hr & _); simplify_eq).
      simpl. rewrite <- app_assoc. simpl. f_equal. set_solver.
Qed.

Lemma computeDiff_added scanned ix :
  added (computeDiff scanned ix) = filter (is_added ix) scanned.
Proof. unfold computeDiff. by rewrite loop_filters. Qed.

Lemma computeDiff_modified scanned ix :
  modified (computeDiff scanned ix) = filter (is_modified ix) scanned.
Proof. unfold computeDiff. by rewrite loop_filters. Qed.

Lemma computeDiff_deleted scanned ix p :
  p ∈ deleted (computeDiff scanned ix) ↔
  is_Some (ix !! p) ∧ ∀ f, f ∈ scanned → path f ≠ p.
Proof.
  unfold computeDiff. rewrite loop_filters. simpl.
  rewrite list_elem_of_filter, list_elem_of_fmap.
  split.
  - intros (Hnot & [k v] & -> & Hin). apply elem_of_map_to_list in Hin.
    split; [by eexists|]. intros f Hf Hp. apply Hnot.
    apply elem_of_union_l, elem_of_list_to_set, list_elem_of_fmap. eauto.
  - intros ([v Hv] & Hno). split.
    + intros Hin. apply elem_of_union in Hin as [Hin|Hin]; [|set_solver].
      apply elem_of_list_to_set, list_elem_of_fmap in Hin as (f & -> & Hf).
      by apply (Hno f).
    + exists (p, v). split; [done|]. by apply elem_of_map_to_list.
Qed.

(** C2: [computeDiff] reports a scanned file as added exactly when its path
    has no indexed row, as modified exactly when it has one with a strictly
    smaller mtime, and in neither list otherwise (the two lists are the
    scanned files filtered by these tests, in scan order); [deleted] holds
    exactly the indexed paths that no scanned file has, each once.  When
    every scanned path is indexed with an equal mtime and every indexed path
    was scanned, the three lists are empty. *)
Theorem computeDiff_classifies (scanned : list ScannedFile)
    (ix : gmap string RepoFileRow) :
  let d := computeDiff scanned ix in
  added d = filter (is_added ix) scanned
  ∧ modified d = filter (is_modified ix) scanned
  ∧ (∀ f, f ∈ added d ↔ f ∈ scanned ∧ ix !! path f = None)
  ∧ (∀ f, f ∈ modified d ↔
          f ∈ scanned ∧ ∃ row, ix !! path f = Some row ∧ row_mtime row < mtime f)
  ∧ (∀ f, f ∈ scanned → f ∉ added d → f ∉ modified d →
          ∃ row, ix !! path f = Some row ∧ mtime f ≤ row_mtime row)
  ∧ (∀ f, ¬ (f ∈ added d ∧ f ∈ modified d))
  ∧ (∀ p, p ∈ deleted d ↔ is_Some (ix !! p) ∧ ∀ f, f ∈ scanned → path f ≠ p)
  ∧ NoDup (deleted d)
  ∧ ((∀ f, f ∈ scanned → ∃ row, ix !! path f = Some row ∧ row_mtime row = mtime f) →
     (∀ p, is_Some (ix !! p) → ∃ f, f ∈ scanned ∧ path f = p) →
     added d = [] ∧ modified d = [] ∧ deleted d = []).
Proof.
  intros d. subst d.
  assert (Ha : ∀ f, f ∈ added (computeDiff scanned ix) ↔
                    f ∈ scanned ∧ ix !! path f = None).
  { intros f. rewrite computeDiff_added, list_elem_of_filter.
    unfold is_added. tauto. }
  assert (Hm : ∀ f, f ∈ modified (computeDiff scanned ix) ↔
                    f ∈ scanned ∧ ∃ row, ix !! path f = Some row
                                         ∧ row_mtime row < mtime f).
  { intros f. rewrite computeDiff_modified, list_elem_of_filter.
    unfold is_modified. tauto. }
  split; [apply computeDiff_added|].
  split; [apply computeDiff_modified|].
  split; [exact Ha|]. split; [exact Hm|].
  split.
  { intros f Hf Hna Hnm. destruct (ix !! path f) as [row|] eqn:E.
    - exists row. split; [done|]. destruct (decide (row_mtime row < mtime f)).
      + exfalso. apply Hnm, Hm. eauto.
      + lia.
    - exfalso. apply Hna, Ha. done. }
  split.
  { intros f [H1 H2]. apply Ha in H1 as [_ H1]. apply Hm in H2 as (_ & r & H2 & _).
    congruence. }
  split; [apply computeDiff_deleted|].
  split.
  { unfold computeDiff. simpl. apply NoDup_filter, NoDup_fst_map_to_list. }
  intros Hsame Hall. repeat split.
  - apply elem_of_nil_inv. intros f Hf. apply Ha in Hf as [Hf Hn].
    destruct (Hsame f Hf) as (r & Hr & _). congruence.
  - apply elem_of_nil_inv. intros f Hf. apply Hm in Hf as (Hf & r & Hr & Hlt).
    destruct (Hsame f Hf) as (r' & Hr' & Heq). simplify_eq. lia.
  - apply elem_of_nil_inv. intros p Hp.
    apply computeDiff_deleted in Hp as [Hs Hno].
    destruct (Hall p Hs) as (f & Hf & Hp). by apply (Hno f).
Qed.

(** A scan with one new, one touched, one untouched file against an index
    that also knows a file that is gone. *)
Example computeDiff_sample :
  let new := mkScannedFile "src/new.ts" "/r/src/new.ts" 40 in
  let touched := mkScannedFile "src/a.ts" "/r/src/a.ts" 31 in
  let same := mkScannedFile "src/b.ts" "/r/src/b.ts" 20 in
  let ix : gmap string RepoFileRow :=
    <["src/a.ts" := mkRepoFileRow "src/a.ts" 30 "typescript"]>
    (<["src/b.ts" := mkRepoFileRow "src/b.ts" 20 "typescript"]>
    (<["src/gone.ts" := mkRepoFileRow "src/gone.ts" 10 "typescript"]> ∅)) in
  computeDiff [new; touched; same] ix
  = mkFileDiff [new] [touched] ["src/gone.ts"%string].
Proof. vm_compute. reflexivity. Qed.

Lemma computeDiff_classifies_witness :
  let f := mkScannedFile "src/a.ts" "/r/src/a.ts" 30 in
  let ix : gmap string RepoFileRow :=
    {[ "src/a.ts"%string := mkRepoFileRow "src/a.ts" 30 "typescript" ]} in
  added (computeDiff [f] ix) = []
  ∧ modified (computeDiff [f] ix) = []
  ∧ deleted (computeDiff [f] ix) = [].
Proof.
  intros f ix.
  pose proof (computeDiff_classifies [f] ix) as (_ & _ & _ & _ & _ & _ & _ & _ & Hsame).
  apply Hsame.
  - intros g Hg. apply list_elem_of_singleton in Hg as ->.
    eexists. split; [apply lookup_singleton_eq | reflexivity].
  - intros p [v Hv]. apply lookup_singleton_Some in Hv as [<- _].
    exists f. split; [apply list_elem_of_here | reflexivity].
Defined.

End IndexerProofs.

(* ===================================================================== *)
(** * Properties of the store                                            *)
(* ===================================================================== *)

Module StoreProofs.
Import Eff Db Store SortProofs.

Lemma calculateComplexity_refines input :
  calculateComplexity input = derived_complexity_spec input.
Proof.
  unfold calculateComplexity, derived_complexity_spec, clamp, given_count, len.
  generalize (Z.of_nat (String.length (in_solution input)) / 500). intros n.
  destruct (in_codeBlocks input) as [[|c cs]|];
    destruct (in_prerequisites input) as [[|p ps]|];
    destruct (in_filesAffected input) as [[|f fs]|];
    cbn [has_length default id length];
    change (Z.of_nat 0) with 0; rewrite ?Zdiv_0_l; lia.
Qed.

Lemma calculateComplexity_range input : 1 ≤ calculateComplexity input ≤ 10.
Proof. unfold calculateComplexity. lia. Qed.

Section WithHelpers.
Context `{Helpers}.

(** The hits before ranking: the rows with a similarity of at least
    [minScore]. *)
Lemma elem_of_hits query minScore st m :
  m ∈ List.filter (λ m, Qle_bool minScore (similarity m))
        (omap (score_row query) (map_to_list (solutions st)))
  ↔ ∃ row, solutions st !! match_id m = Some row
           ∧ row_similarity query row = Some (similarity m)
           ∧ (minScore <= similarity m)%Q.
Proof.
  rewrite list_elem_of_In, filter_In, <- list_elem_of_In, list_elem_of_omap.
  rewrite Qle_bool_iff. split.
  - intros [([id row] & Hin & Hs) Hle]. apply elem_of_map_to_list in Hin.
    unfold score_row in Hs. simpl in Hs.
    destruct (row_similarity query row) as [s|] eqn:E; [|done].
    simplify_eq. simpl in *. eauto.
  - intros (row & Hrow & Hs & Hle). split; [|done].
    exists (match_id m, row). split; [by apply elem_of_map_to_list|].
    unfold score_row. simpl. rewrite Hs. by destruct m.
Qed.

(** The search finds the best match when there is a near-duplicate. *)
Lemma search_hit query st :
  near_duplicate query st →
  ∃ dup row,
    searchSimilarSolutions query 1 (9 # 10) st = [dup]
    ∧ solutions st !! match_id dup = Some row
    ∧ row_similarity query row = Some (similarity dup)
    ∧ (9 # 10 <= similarity dup)%Q
    ∧ ∀ id' row' s', solutions st !! id' = Some row' →
        row_similarity query row' = Some s' → (s' <= similarity dup)%Q.
Proof.
  intros (id & row & s & Hrow & Hs & Hle).
  unfold searchSimilarSolutions.
  set (hits := List.filter _ _).
  assert (Hin : mkMatch id s ∈ hits) by (apply elem_of_hits; eauto).
  pose proof (sort_desc_sorted similarity hits) as Hsorted.
  apply (elem_of_sort_desc similarity) in Hin.
  destruct (sort_desc similarity hits) as [|dup rest] eqn:E;
    [by apply elem_of_nil in Hin|].
  assert (Hdup : dup ∈ hits).
  { apply (elem_of_sort_desc similarity). rewrite E. apply list_elem_of_here. }
  apply elem_of_hits in Hdup as (row' & Hrow' & Hs' & Hle').
  exists dup, row'. simpl. rewrite take_0.
  repeat split; try done.
  intros id2 row2 s2 Hrow2 Hs2.
  destruct (Qlt_le_dec s2 (9 # 10)) as [Hlt|Hge].
  - apply Qlt_le_weak. by apply Qlt_le_trans with (9 # 10)%Q.
  - apply (descending_head similarity dup rest (mkMatch id2 s2) Hsorted).
    rewrite <- E. apply elem_of_sort_desc, elem_of_hits. eauto.
Qed.

Lemma search_miss query st :
  ¬ near_duplicate query st → searchSimilarSolutions query 1 (9 # 10) st = [].
Proof.
  intros Hno. unfold searchSimilarSolutions.
  set (hits := List.filter _ _).
  destruct (sort_desc similarity hits) as [|dup rest] eqn:E; [done|].
  exfalso. apply Hno.
  assert (Hdup : dup ∈ hits).
  { apply (elem_of_sort_desc similarity). rewrite E. apply list_elem_of_here. }
  apply elem_of_hits in Hdup as (row & Hrow & Hs & Hle).
  by exists (match_id dup), row, (similarity dup).
Qed.

(** With a near-duplicate in the store the call ends at the duplicate
    check, whatever the rest of the input says. *)
Lemma matrixStore_at_duplicate input env st e :
  getEmbedding (in_problem input) = Some e →
  near_duplicate e st →
  ∃ dup row,
    matrixStore input env st = (Ok (duplicate_result input dup row), st)
    ∧ solutions st !! match_id dup = Some row
    ∧ row_similarity e row = Some (similarity dup)
    ∧ (9 # 10 <= similarity dup)%Q
    ∧ ∀ id' row' s', solutions st !! id' = Some row' →
        row_similarity e row' = Some s' → (s' <= similarity dup)%Q.
Proof.
  intros He Hdup.
  destruct (search_hit e st Hdup) as (dup & row & Hsearch & Hrow & Hs & Hle & Hbest).
  exists dup, row. repeat split; try done.
  unfold matrixStore. rewrite He.
  unfold bind, gets, select_solution, ret. rewrite Hsearch. simpl.
  by rewrite Hrow.
Qed.

(** Without one it goes on to [store_new]. *)
Lemma matrixStore_no_duplicate input env st e :
  getEmbedding (in_problem input) = Some e →
  ¬ near_duplicate e st →
  matrixStore input env st =
  store_new input env (String.append "sol_" (String.substring 0 8 (randomUUID env)))
    e st.
Proof.
  intros He Hno. unfold matrixStore. rewrite He.
  unfold bind at 1. unfold gets. by rewrite (search_miss e st Hno).
Qed.

Lemma store_new_inv input env id e st r st' :
  store_new input env id e st = (Ok r, st') →
  r = new_result input id
  ∧ solutions st !! id = None
  ∧ st' = mkState (<[id := new_row input env e]> (solutions st)) (usage_log st).
Proof.
  unfold store_new, bind, select_solution, gets, throw, ret, insert_solution.
  destruct (truthy (in_supersedes input)) as [target|];
    [destruct (solutions st !! target)|];
    repeat case_bool_decide; simpl; intros Heq; simplify_eq;
    (split; [done|split; [|done]]);
    by apply eq_None_not_Some.
Qed.

Lemma store_new_ok input env id e st :
  (∀ target, truthy (in_supersedes input) = Some target →
             is_Some (solutions st !! target)) →
  solutions st !! id = None →
  1 ≤ default (calculateComplexity input) (in_complexity input) ≤ 10 →
  store_new input env id e st =
  (Ok (new_result input id),
   mkState (<[id := new_row input env e]> (solutions st)) (usage_log st)).
Proof.
  intros Hsup Hfresh Hrange.
  unfold store_new, bind, select_solution, gets, throw, ret, insert_solution.
  assert (Hins : bool_decide (is_Some (solutions st !! id)) = false).
  { apply bool_decide_eq_false. rewrite Hfresh. by intros [? ?]. }
  assert (Hc : bool_decide (1 ≤ complexity (new_row input env e) ≤ 10) = true)
    by by apply bool_decide_eq_true.
  destruct (truthy (in_supersedes input)) as [target|] eqn:Et.
  - destruct (Hsup target eq_refl) as [row Hrow]. rewrite Hrow.
    cbv beta iota. by rewrite Hins, Hc.
  - cbv beta iota. by rewrite Hins, Hc.
Qed.

Lemma store_new_missing input env id e st target :
  truthy (in_supersedes input) = Some target →
  solutions st !! target = None →
  store_new input env id e st = (Err (NotFound target), st).
Proof.
  intros Ht Hnone.
  unfold store_new, bind, select_solution, gets, throw, ret.
  by rewrite Ht, Hnone.
Qed.

Lemma matrixStore_inv input env st r st' :
  matrixStore input env st = (Ok r, st') →
  (res_status r = Duplicate ∧ st' = st)
  ∨ (∃ e, getEmbedding (in_problem input) = Some e
          ∧ store_new input env
              (String.append "sol_" (String.substring 0 8 (randomUUID env))) e st
            = (Ok r, st')).
Proof.
  unfold matrixStore.
  destruct (getEmbedding (in_problem input)) as [e|]; [|by unfold throw].
  unfold bind at 1. unfold gets.
  destruct (searchSimilarSolutions e 1 (9 # 10) st) as [|dup rest].
  - intros Heq. right. by exists e.
  - unfold bind, select_solution, gets, ret.
    destruct (solutions st !! match_id dup) as [row|] eqn:E.
    + intros Heq. left. by simplify_eq.
    + intros Heq. right. by exists e.
Qed.

(** The reported similarity is the nearest multiple of 1/1000. *)
Lemma round3_close x :
  (round3 x - (1 # 2000) <= x)%Q ∧ (x < round3 x + (1 # 2000))%Q.
Proof.
  unfold round3.
  pose proof (Qfloor_le (x * 1000 + (1 # 2))) as Hlo.
  pose proof (Qlt_floor (x * 1000 + (1 # 2))) as Hhi.
  rewrite inject_Z_plus in Hhi.
  set (n := inject_Z (Qfloor (x * 1000 + (1 # 2)))) in *.
  change (inject_Z 1) with 1%Q in Hhi.
  unfold Qdiv. change (/ 1000)%Q with (1 # 1000)%Q.
  split; lra.
Qed.

(** C1 (as amended): when some stored solution has similarity at least 0.9
    to the embedding of the problem, [matrixStore] returns status
    [duplicate] with the id of the best-matching stored record and its
    similarity rounded to three decimals, and leaves the database as it was:
    no row is inserted and the number of stored solutions is unchanged. *)
Theorem matrixStore_duplicate input env st e :
  getEmbedding (in_problem input) = Some e →
  near_duplicate e st →
  ∃ id row s r st',
    matrixStore input env st = (Ok r, st')
    ∧ solutions st !! id = Some row
    ∧ row_similarity e row = Some s
    ∧ (9 # 10 <= s)%Q
    ∧ (∀ id' row' s', solutions st !! id' = Some row' →
         row_similarity e row' = Some s' → (s' <= s)%Q)
    ∧ res_status r = Duplicate
    ∧ res_id r = id
    ∧ res_similarity r = Some (round3 s)
    ∧ (round3 s - (1 # 2000) <= s)%Q ∧ (s < round3 s + (1 # 2000))%Q
    ∧ st' = st
    ∧ size (solutions st') = size (solutions st).
Proof.
  intros He Hdup.
  destruct (matrixStore_at_duplicate input env st e He Hdup)
    as (dup & row & Hrun & Hrow & Hs & Hle & Hbest).
  exists (match_id dup), row, (similarity dup), (duplicate_result input dup row), st.
  pose proof (round3_close (similarity dup)) as [Hlo Hhi].
  repeat split; done.
Qed.

(** C9: the duplicate check comes first.  With a near-duplicate in the
    store the call returns status [duplicate] even when [supersedes] names
    an id that has no record; it does not fail, and in particular raises no
    NotFound. *)
Theorem duplicate_check_precedes_supersedes input env st e target :
  getEmbedding (in_problem input) = Some e →
  near_duplicate e st →
  in_supersedes input = Some target →
  solutions st !! target = None →
  ∃ r, matrixStore input env st = (Ok r, st)
       ∧ res_status r = Duplicate
       ∧ ∀ err st', matrixStore input env st ≠ (Err err, st').
Proof.
  intros He Hdup _ _.
  destruct (matrixStore_at_duplicate input env st e He Hdup)
    as (dup & row & Hrun & _).
  exists (duplicate_result input dup row). rewrite Hrun.
  split; [done|]. split; [done|]. intros err st' Heq. discriminate.
Qed.

(** C7 (as amended): when [supersedes] holds a non-empty id that has no
    record and the problem is not a near-duplicate, [matrixStore] fails with
    NotFound for that id and the database is as before the call. *)
Theorem matrixStore_supersedes_missing input env st e target :
  getEmbedding (in_problem input) = Some e →
  ¬ near_duplicate e st →
  in_supersedes input = Some target →
  target ≠ ""%string →
  solutions st !! target = None →
  matrixStore input env st = (Err (NotFound target), st).
Proof.
  intros He Hno Hsup Hne Hnone.
  rewrite (matrixStore_no_duplicate input env st e He Hno).
  apply store_new_missing; [|done].
  rewrite Hsup. unfold truthy. by destruct target.
Qed.

(** C5: with [complexity] omitted, the derived value is the one of the
    specification (1, plus up to 4 for the length of the solution text, plus
    up to 2 each for code blocks, prerequisites and half the affected
    files, clamped) and lies in 1..10; every call that stores a row
    persists exactly this value, and a call with a fresh id, no
    near-duplicate and a valid [supersedes] does store a row. *)
Theorem matrixStore_derives_complexity input env st :
  in_complexity input = None →
  calculateComplexity input = derived_complexity_spec input
  ∧ 1 ≤ calculateComplexity input ≤ 10
  ∧ (∀ r st', matrixStore input env st = (Ok r, st') →
       res_status r ≠ Duplicate →
       ∃ row, solutions st' !! res_id r = Some row
              ∧ complexity row = derived_complexity_spec input
              ∧ res_complexity r = Some (complexity row)
              ∧ size (solutions st') = S (size (solutions st)))
  ∧ (∀ e, getEmbedding (in_problem input) = Some e →
       ¬ near_duplicate e st →
       (∀ target, truthy (in_supersedes input) = Some target →
                  is_Some (solutions st !! target)) →
       solutions st !!
         String.append "sol_" (String.substring 0 8 (randomUUID env)) = None →
       ∃ r st', matrixStore input env st = (Ok r, st')
                ∧ res_status r ≠ Duplicate).
Proof.
  intros Hc.
  split; [apply calculateComplexity_refines|].
  split; [apply calculateComplexity_range|].
  split.
  - intros r st' Hrun Hnd.
    apply matrixStore_inv in Hrun as [[Hd _]|(e & He & Hrun)]; [done|].
    apply store_new_inv in Hrun as (-> & Hfresh & ->).
    exists (new_row input env e). simpl.
    rewrite lookup_insert_eq, Hc. simpl.
    rewrite <- calculateComplexity_refines.
    repeat split; try done. by apply map_size_insert_None.
  - intros e He Hno Hsup Hfresh.
    rewrite (matrixStore_no_duplicate input env st e He Hno).
    rewrite store_new_ok; try done.
    + eexists _, _. split; [done|].
      unfold new_result. simpl. by destruct (truthy (in_supersedes input)).
    + rewrite Hc. simpl. apply calculateComplexity_range.
Qed.

End WithHelpers.

(** ** Runs against the test doubles *)

Import Mock.

Lemma near_duplicate_sample : near_duplicate unit_vector one_solution.
Proof.
  exists "sol_0000000a"%string,
    (sample_row "OAuth integration with Google" near_vector 3 2 ["auth"%string]),
    (40 # 41)%Q.
  split; [vm_compute; reflexivity|].
  split; [vm_compute; reflexivity|].
  vm_compute. discriminate.
Defined.

Lemma not_near_duplicate_sample : ¬ near_duplicate far_vector one_solution.
Proof.
  intros (id & row & s & Hrow & Hs & Hle).
  unfold one_solution in Hrow. cbn [solutions] in Hrow.
  apply lookup_singleton_Some in Hrow as [<- <-].
  vm_compute in Hs. injection Hs as <-.
  apply Qle_bool_iff in Hle. vm_compute in Hle. discriminate.
Defined.

Example matrixStore_sample_stored :
  ∃ r st', matrixStore (sample_input "Rate limit the API" None) sample_env one_solution
           = (Ok r, st')
    ∧ res_id r = "sol_3f2a9c1e"%string
    ∧ res_status r = Stored
    ∧ res_complexity r = Some 1
    ∧ size (solutions st') = 2%nat.
Proof. eexists _, _. vm_compute. repeat split. Qed.

Lemma matrixStore_duplicate_witness :
  ∃ id row s r st',
    matrixStore (sample_input "OAuth with Google auth" None) sample_env one_solution
    = (Ok r, st')
    ∧ solutions one_solution !! id = Some row
    ∧ row_similarity unit_vector row = Some s
    ∧ (9 # 10 <= s)%Q
    ∧ (∀ id' row' s', solutions one_solution !! id' = Some row' →
         row_similarity unit_vector row' = Some s' → (s' <= s)%Q)
    ∧ res_status r = Duplicate
    ∧ res_id r = id
    ∧ res_similarity r = Some (round3 s)
    ∧ (round3 s - (1 # 2000) <= s)%Q ∧ (s < round3 s + (1 # 2000))%Q
    ∧ st' = one_solution
    ∧ size (solutions st') = size (solutions one_solution).
Proof.
  apply (matrixStore_duplicate (sample_input "OAuth with Google auth" None)
           sample_env one_solution unit_vector).
  - vm_compute. reflexivity.
  - exact near_duplicate_sample.
Defined.

(** The stored problem is at similarity 40/41 to the new one; the result
    carries 0.976, which is not that value. *)
Lemma matrixStore_duplicate_exact_similarity_cex :
  let input := sample_input "OAuth with Google auth" None in
  let row := sample_row "OAuth integration with Google" near_vector 3 2 ["auth"%string] in
  getEmbedding (in_problem input) = Some unit_vector
  ∧ solutions one_solution !! "sol_0000000a"%string = Some row
  ∧ row_similarity unit_vector row = Some (40 # 41)%Q
  ∧ (9 # 10 <= 40 # 41)%Q
  ∧ ∃ r, matrixStore input sample_env one_solution = (Ok r, one_solution)
         ∧ res_similarity r = Some (976 # 1000)%Q
         ∧ ¬ duplicate_of r "sol_0000000a" (40 # 41).
Proof.
  intros input row.
  split; [vm_compute; reflexivity|].
  split; [vm_compute; reflexivity|].
  split; [vm_compute; reflexivity|].
  split; [vm_compute; discriminate|].
  eexists. split; [vm_compute; reflexivity|].
  split; [vm_compute; reflexivity|].
  intros (_ & _ & q & Hq & Heq).
  vm_compute in Hq. injection Hq as <-.
  vm_compute in Heq. discriminate.
Qed.

Lemma duplicate_check_precedes_supersedes_witness :
  ∃ r, matrixStore (sample_input "OAuth with Google auth" (Some "sol_missing"%string))
         sample_env one_solution = (Ok r, one_solution)
       ∧ res_status r = Duplicate
       ∧ ∀ err st',
           matrixStore (sample_input "OAuth with Google auth" (Some "sol_missing"%string))
             sample_env one_solution ≠ (Err err, st').
Proof.
  apply (duplicate_check_precedes_supersedes
           (sample_input "OAuth with Google auth" (Some "sol_missing"%string))
           sample_env one_solution unit_vector "sol_missing"%string).
  - vm_compute. reflexivity.
  - exact near_duplicate_sample.
  - reflexivity.
  - vm_compute. reflexivity.
Defined.

Lemma matrixStore_supersedes_missing_witness :
  matrixStore (sample_input "Rate limit the API" (Some "sol_missing"%string))
    sample_env one_solution
  = (Err (NotFound "sol_missing"), one_solution).
Proof.
  apply (matrixStore_supersedes_missing
           (sample_input "Rate limit the API" (Some "sol_missing"%string))
           sample_env one_solution far_vector "sol_missing"%string).
  - vm_compute. reflexivity.
  - exact not_near_duplicate_sample.
  - reflexivity.
  - discriminate.
  - vm_compute. reflexivity.
Defined.

(** An empty [supersedes] names no record, the problem is no
    near-duplicate, and the call stores a row instead of failing. *)
Lemma matrixStore_supersedes_empty_cex :
  let input := sample_input "Rate limit the API" (Some ""%string) in
  getEmbedding (in_problem input) = Some far_vector
  ∧ ¬ near_duplicate far_vector one_solution
  ∧ in_supersedes input = Some ""%string
  ∧ solutions one_solution !! ""%string = None
  ∧ ∃ r st', matrixStore input sample_env one_solution = (Ok r, st')
             ∧ res_status r = Stored
             ∧ size (solutions st') = 2%nat
             ∧ ∀ id, matrixStore input sample_env one_solution
                     ≠ (Err (NotFound id), one_solution).
Proof.
  intros input.
  split; [vm_compute; reflexivity|].
  split; [exact not_near_duplicate_sample|].
  split; [reflexivity|].
  split; [vm_compute; reflexivity|].
  eexists _, _. split; [vm_compute; reflexivity|].
  split; [reflexivity|]. split; [vm_compute; reflexivity|].
  intros id. vm_compute. discriminate.
Qed.

Lemma matrixStore_derives_complexity_witness :
  let input := sample_input "Rate limit the API" None in
  calculateComplexity input = derived_complexity_spec input
  ∧ 1 ≤ calculateComplexity input ≤ 10
  ∧ ∃ r st', matrixStore input sample_env one_solution = (Ok r, st')
             ∧ res_status r ≠ Duplicate.
Proof.
  intros input.
  pose proof (matrixStore_derives_complexity input sample_env one_solution eq_refl)
    as (Hspec & Hrange & _ & Hruns).
  split; [exact Hspec|]. split; [exact Hrange|].
  apply (Hruns far_vector).
  - vm_compute. reflexivity.
  - exact not_near_duplicate_sample.
  - intros target Ht. vm_compute in Ht. discriminate.
  - vm_compute. reflexivity.
Defined.

End StoreProofs.

(* ===================================================================== *)
(** * Properties of the merge command                                    *)
(* ===================================================================== *)

Module MergeProofs.
Import Eff Db Merge SortProofs.

Section WithHelpers.
Context `{Helpers}.

Lemma compare_pair_Some threshold x y c :
  compare_pair threshold x y = Some c ↔
  a c = x ∧ b c = y ∧ similar_pair threshold x y (similarity c).
Proof.
  unfold compare_pair, similar_pair. split.
  - destruct (bufferToEmbedding (problem_embedding x)) as [ea|]; [|done].
    destruct (bufferToEmbedding (problem_embedding y)) as [eb|]; [|done].
    repeat case_bool_decide; simpl; try done.
    destruct (cosineSimilarity ea eb) as [s|] eqn:Ec; [|done].
    destruct (Qle_bool threshold s) eqn:E; [|done].
    intros [= <-]. simpl. apply Qle_bool_iff in E.
    split; [done|]. split; [done|]. exists ea, eb. repeat split; done.
  - intros (<- & <- & ea & eb & -> & -> & Ha & Hb & -> & Hle).
    rewrite !bool_decide_eq_false_2 by (by intros ?). simpl.
    apply Qle_bool_iff in Hle. rewrite Hle. by destruct c.
Qed.

Lemma elem_of_scan_pairs threshold solutions c :
  c ∈ scan_pairs threshold solutions ↔
  ∃ i j, (i < j)%nat
         ∧ solutions !! i = Some (a c)
         ∧ solutions !! j = Some (b c)
         ∧ similar_pair threshold (a c) (b c) (similarity c).
Proof.
  induction solutions as [|x rest IH]; simpl.
  - rewrite elem_of_nil. split; [done|]. by intros (i & j & _ & Hi & _).
  - rewrite elem_of_app, list_elem_of_omap, IH. split.
    + intros [(y & Hy & Hc)|(i & j & Hij & Hi & Hj & Hs)].
      * apply compare_pair_Some in Hc as (Ha & Hb & Hs).
        apply list_elem_of_lookup in Hy as [k Hk].
        exists 0%nat, (S k). simpl. rewrite Ha, Hb.
        repeat split; try done. lia.
      * exists (S i), (S j). simpl. repeat split; try done. lia.
    + intros (i & j & Hij & Hi & Hj & Hs).
      destruct j as [|j]; [lia|]. simpl in Hj.
      destruct i as [|i]; simpl in Hi.
      * left. exists (b c). split; [by eapply list_elem_of_lookup_2|].
        apply compare_pair_Some. injection Hi as ->. done.
      * right. exists i, j. repeat split; try done. lia.
Qed.

Lemma scan_pairs_ids threshold solutions c :
  c ∈ scan_pairs threshold solutions →
  id (a c) ∈ id <$> solutions ∧ id (b c) ∈ id <$> solutions.
Proof.
  intros (i & j & _ & Hi & Hj & _)%elem_of_scan_pairs.
  split; apply list_elem_of_fmap; eexists; (split; [done|]);
    by eapply list_elem_of_lookup_2.
Qed.

Lemma row_pairs_NoDup threshold x rest :
  NoDup (id <$> rest) →
  NoDup (pair_ids <$> omap (compare_pair threshold x) rest).
Proof.
  induction rest as [|y rest IH]; simpl; [constructor|].
  intros [Hy Hrest]%NoDup_cons.
  destruct (compare_pair threshold x y) as [c|] eqn:E; simpl; [|by apply IH].
  apply compare_pair_Some in E as (Ha & Hb & _).
  apply NoDup_cons. split; [|by apply IH].
  intros (c' & Heq & (y' & Hy' & Hc')%list_elem_of_omap)%list_elem_of_fmap.
  apply compare_pair_Some in Hc' as (Ha' & Hb' & _).
  apply Hy. apply list_elem_of_fmap. exists y'. split; [|done].
  unfold pair_ids in Heq. congruence.
Qed.

Lemma scan_pairs_NoDup threshold solutions :
  NoDup (id <$> solutions) →
  NoDup (pair_ids <$> scan_pairs threshold solutions).
Proof.
  induction solutions as [|x rest IH]; simpl; [constructor|].
  intros [Hx Hrest]%NoDup_cons.
  rewrite fmap_app. apply NoDup_app. split; [by apply row_pairs_NoDup|].
  split; [|by apply IH].
  intros p (c & -> & (y & Hy & Hc)%list_elem_of_omap)%list_elem_of_fmap
           (c' & Heq & Hc')%list_elem_of_fmap.
  apply compare_pair_Some in Hc as (Ha & _).
  apply scan_pairs_ids in Hc' as [Ha' _].
  apply Hx. unfold pair_ids in Heq. by replace (id x) with (id (a c')) by congruence.
Qed.

Lemma merge_candidates_sort threshold solutions :
  merge_candidates threshold solutions =
  sort_desc similarity (scan_pairs threshold solutions).
Proof.
  unfold merge_candidates. case_bool_decide as Hlen; [|done].
  destruct solutions as [|x [|y rest]]; simpl in *; try done. lia.
Qed.

(** C6: the candidate list of [merge] holds exactly the pairs of
    solutions at positions i < j of the loaded list whose embeddings both
    decode to length D = 384 and whose cosine similarity is at least the
    threshold, with that similarity; it is in descending order of
    similarity.  A pair that fails the dimension test (or whose decoding or
    comparison throws) is left out and every other qualifying pair is still
    listed.  With distinct ids every unordered pair appears at most once and
    its two solutions are distinct. *)
Theorem merge_candidates_exact threshold (solutions : list Solution) :
  let cs := merge_candidates threshold solutions in
  (∀ c, c ∈ cs ↔
        ∃ i j, (i < j)%nat
               ∧ solutions !! i = Some (a c)
               ∧ solutions !! j = Some (b c)
               ∧ similar_pair threshold (a c) (b c) (similarity c))
  ∧ descending similarity cs
  ∧ cs ≡ₚ scan_pairs threshold solutions
  ∧ (NoDup (id <$> solutions) →
     NoDup (pair_ids <$> cs)
     ∧ ∀ c, c ∈ cs →
         id (a c) ≠ id (b c)
         ∧ ∀ c', c' ∈ cs → pair_ids c' ≠ (id (b c), id (a c))).
Proof.
  intros cs. subst cs. rewrite merge_candidates_sort.
  split.
  { intros c. rewrite elem_of_sort_desc. apply elem_of_scan_pairs. }
  split; [apply sort_desc_sorted|].
  split; [apply sort_desc_perm|].
  intros Hnd. split.
  { rewrite sort_desc_perm. by apply scan_pairs_NoDup. }
  assert (Hidx : ∀ i j x y, solutions !! i = Some x → solutions !! j = Some y →
                            id x = id y → i = j).
  { intros i j x y Hi Hj Heq.
    eapply NoDup_lookup; [exact Hnd| |];
      rewrite list_lookup_fmap; [by rewrite Hi|by rewrite Hj, Heq]. }
  intros c Hc. apply elem_of_sort_desc, elem_of_scan_pairs in Hc
    as (i & j & Hij & Hi & Hj & _).
  split.
  - intros Heq. pose proof (Hidx i j _ _ Hi Hj Heq). lia.
  - intros c' Hc' Hflip. apply elem_of_sort_desc, elem_of_scan_pairs in Hc'
      as (i' & j' & Hij' & Hi' & Hj' & _).
    unfold pair_ids in Hflip. injection Hflip as Ha Hb.
    pose proof (Hidx i' j _ _ Hi' Hj Ha). pose proof (Hidx j' i _ _ Hj' Hi Hb).
    lia.
Qed.

End WithHelpers.

Lemma elem_of_spread_set x xs : x ∈ spread_set xs ↔ x ∈ xs.
Proof.
  induction xs as [|y xs IH]; simpl; [done|].
  rewrite !elem_of_cons, list_elem_of_In, filter_In, <- list_elem_of_In, IH.
  split; [tauto|]. intros [->|Hin]; [by left|].
  destruct (decide (x = y)) as [->|Hne]; [by left|]. right. split; [done|].
  apply negb_true_iff, String.eqb_neq. congruence.
Qed.

Lemma spread_set_NoDup xs : NoDup (spread_set xs).
Proof.
  induction xs as [|y xs IH]; simpl; [constructor|].
  apply NoDup_cons. split.
  - rewrite list_elem_of_In, filter_In. intros [_ Hne].
    apply negb_true_iff, String.eqb_neq in Hne. done.
  - apply NoDup_ListNoDup, List.NoDup_filter, NoDup_ListNoDup, IH.
Qed.

Lemma size_alter (f : SolutionRow → SolutionRow) i (m : gmap string SolutionRow) :
  size (alter f i m) = size m.
Proof.
  rewrite <- !(size_dom (D := gset string)). by rewrite dom_alter_L.
Qed.

Lemma merged_state_lookup_keep keep remove combined now st :
  id keep ≠ id remove →
  solutions (merged_state keep remove combined now st) !! id keep
  = merged_row keep remove combined now <$> solutions st !! id keep.
Proof.
  intros Hne. unfold merged_state. cbn [solutions].
  rewrite lookup_delete_ne by done. apply lookup_alter_eq.
Qed.

Lemma merged_state_lookup_remove keep remove combined now st :
  solutions (merged_state keep remove combined now st) !! id remove = None.
Proof. apply lookup_delete_eq. Qed.

Lemma merged_state_lookup_other keep remove combined now st other :
  other ≠ id keep → other ≠ id remove →
  solutions (merged_state keep remove combined now st) !! other
  = solutions st !! other.
Proof.
  intros Hk Hr. unfold merged_state. cbn [solutions].
  rewrite lookup_delete_ne by done. by rewrite lookup_alter_ne.
Qed.

Lemma merged_state_size keep remove combined now st :
  size (solutions (merged_state keep remove combined now st))
  = (if solutions st !! id remove is Some _
     then pred (size (solutions st)) else size (solutions st)).
Proof.
  unfold merged_state. cbn [solutions].
  rewrite map_size_delete, size_alter.
  destruct (decide (id keep = id remove)) as [Heq|Hne].
  - rewrite Heq, lookup_alter_eq. by destruct (solutions st !! id remove).
  - rewrite lookup_alter_ne by done. by destruct (solutions st !! id remove).
Qed.

Section WithJson.
Context `{Js.Json}.

Lemma parse_tags_cases column :
  (∃ array, parse_tags column = Ok array)
  ∨ (∃ text, parse_tags column = Err (SyntaxError text)).
Proof.
  destruct column as [array|text]; simpl; [left; by eexists|].
  destruct (Js.JSON_parse _); [left|right]; by eexists.
Qed.

(** The run of [executeMerge] on tags that are JSON. *)
Lemma executeMerge_run keep remove keepTags removeTags now st :
  parse_tags (tags keep) = Ok keepTags →
  parse_tags (tags remove) = Ok removeTags →
  executeMerge keep remove now st
  = (Ok (), merged_state keep remove (spread_set (keepTags ++ removeTags)) now st).
Proof.
  intros Hk Hr. unfold executeMerge, bind, call. by rewrite Hk, Hr.
Qed.

(** The run of [executeMerge] on a tags text that is no JSON. *)
Lemma executeMerge_throws keep remove now st :
  (∀ array, parse_tags (tags keep) ≠ Ok array)
  ∨ (∀ array, parse_tags (tags remove) ≠ Ok array) →
  ∃ text, executeMerge keep remove now st = (Err (SyntaxError text), st).
Proof.
  intros Hbad. unfold executeMerge, bind, call.
  destruct (parse_tags_cases (tags keep)) as [[kt Hk]|[text Hk]]; rewrite Hk.
  - destruct (parse_tags_cases (tags remove)) as [[rt Hr]|[text Hr]]; rewrite Hr.
    + destruct Hbad as [Hbad|Hbad]; [by destruct (Hbad kt) | by destruct (Hbad rt)].
    + by exists text.
  - by exists text.
Qed.

Lemma executeMerge_cases keep remove now st :
  (∃ keepTags removeTags,
     parse_tags (tags keep) = Ok keepTags
     ∧ parse_tags (tags remove) = Ok removeTags
     ∧ executeMerge keep remove now st
       = (Ok (), merged_state keep remove (spread_set (keepTags ++ removeTags)) now st))
  ∨ (((∀ array, parse_tags (tags keep) ≠ Ok array)
      ∨ (∀ array, parse_tags (tags remove) ≠ Ok array))
     ∧ ∃ text, executeMerge keep remove now st = (Err (SyntaxError text), st)).
Proof.
  destruct (parse_tags_cases (tags keep)) as [[kt Hk]|[text Hk]].
  - destruct (parse_tags_cases (tags remove)) as [[rt Hr]|[text Hr]].
    + left. exists kt, rt. split; [done|]. split; [done|]. by apply executeMerge_run.
    + right. assert (Hbad : ∀ array, parse_tags (tags remove) ≠ Ok array)
        by (intros array; rewrite Hr; discriminate).
      split; [by right|]. apply executeMerge_throws. by right.
  - right. assert (Hbad : ∀ array, parse_tags (tags keep) ≠ Ok array)
      by (intros array; rewrite Hk; discriminate).
    split; [by left|]. apply executeMerge_throws. by left.
Qed.

(** C3 (as amended): for two solution objects with different ids whose
    tags texts are JSON, where the id of [keep] is stored,
    [executeMerge keep remove] completes and leaves at the id of [keep] a row
    whose uses, successes, partial successes and failures are the sums of the
    counters of the two objects and whose tags are the union of their tags
    (each tag once); no row is left at the id of [remove], the other rows
    stay and one audit entry is appended.  When the two objects are the rows
    as they are stored, the sums are those of the two old rows. *)
Theorem executeMerge_sums keep remove keepTags removeTags krow now st :
  id keep ≠ id remove →
  solutions st !! id keep = Some krow →
  parse_tags (tags keep) = Ok keepTags →
  parse_tags (tags remove) = Ok removeTags →
  ∃ st' krow',
    executeMerge keep remove now st = (Ok (), st')
    ∧ solutions st' !! id keep = Some krow'
    ∧ Db.uses krow' = uses keep + uses remove
    ∧ Db.successes krow' = successes keep + successes remove
    ∧ Db.partial_successes krow' = partial_successes keep + partial_successes remove
    ∧ Db.failures krow' = failures keep + failures remove
    ∧ (∃ combined,
         Db.tags krow' = TagsJson combined
         ∧ (∀ t, t ∈ combined ↔ t ∈ keepTags ∨ t ∈ removeTags)
         ∧ NoDup combined)
    ∧ solutions st' !! id remove = None
    ∧ (∀ other, other ≠ id keep → other ≠ id remove →
         solutions st' !! other = solutions st !! other)
    ∧ usage_log st' = usage_log st ++ [merge_log keep remove now]
    ∧ (∀ rrow, solutions st !! id remove = Some rrow →
         size (solutions st') = pred (size (solutions st))
         ∧ (keep = to_solution (id keep, krow) →
            remove = to_solution (id remove, rrow) →
            Db.uses krow' = Db.uses krow + Db.uses rrow
            ∧ Db.successes krow' = Db.successes krow + Db.successes rrow
            ∧ Db.partial_successes krow'
              = Db.partial_successes krow + Db.partial_successes rrow
            ∧ Db.failures krow' = Db.failures krow + Db.failures rrow
            ∧ parse_tags (Db.tags krow) = Ok keepTags
            ∧ parse_tags (Db.tags rrow) = Ok removeTags)).
Proof.
  intros Hne Hk Hkt Hrt.
  eexists _, (merged_row keep remove (spread_set (keepTags ++ removeTags)) now krow).
  split; [by apply executeMerge_run|].
  split; [by rewrite merged_state_lookup_keep, Hk|].
  do 4 (split; [done|]).
  split.
  { exists (spread_set (keepTags ++ removeTags)). split; [done|].
    split; [intros t; by rewrite elem_of_spread_set, elem_of_app|].
    apply spread_set_NoDup. }
  split; [apply merged_state_lookup_remove|].
  split; [intros other Hok Hor; by apply merged_state_lookup_other|].
  split; [done|].
  intros rrow Hr. split; [by rewrite merged_state_size, Hr|].
  intros Hkeep Hremove. rewrite Hkeep in Hkt. rewrite Hremove in Hrt.
  rewrite Hkeep, Hremove. simpl in *. done.
Qed.


End WithJson.

(** ** Runs against the test doubles *)

Import Mock.

(** The third solution has an embedding of length 2: both pairs with it are
    skipped and the pair of the other two is still found. *)
Example merge_candidates_sample :
  merge_candidates (8 # 10) [sol_a; sol_c; sol_b]
  = [mkMergeCandidate sol_a sol_b (40 # 41)].
Proof. vm_compute. reflexivity. Qed.

Lemma merge_candidates_exact_witness :
  NoDup (pair_ids <$> merge_candidates (8 # 10) [sol_a; sol_c; sol_b])
  ∧ ∀ c, c ∈ merge_candidates (8 # 10) [sol_a; sol_c; sol_b] →
      id (a c) ≠ id (b c)
      ∧ ∀ c', c' ∈ merge_candidates (8 # 10) [sol_a; sol_c; sol_b] →
          pair_ids c' ≠ (id (b c), id (a c)).
Proof.
  pose proof (merge_candidates_exact (8 # 10) [sol_a; sol_c; sol_b])
    as (_ & _ & _ & Hnodup).
  apply Hnodup. apply (bool_decide_unpack _). vm_compute. exact I.
Defined.

Example executeMerge_sample :
  ∃ st' row,
    executeMerge sol_b sol_a 300 three_solutions = (Ok (), st')
    ∧ solutions st' !! "sol_0000000b"%string = Some row
    ∧ Db.uses row = 8
    ∧ Db.successes row = 3
    ∧ Db.tags row = TagsJson ["oauth"; "google"; "auth"]%string
    ∧ solutions st' !! "sol_0000000a"%string = None
    ∧ size (solutions st') = 2%nat.
Proof. eexists _, _. vm_compute. repeat split. Qed.

Lemma executeMerge_sums_witness :
  ∃ st' krow',
    executeMerge sol_b sol_a 300 three_solutions = (Ok (), st')
    ∧ solutions st' !! "sol_0000000b"%string = Some krow'
    ∧ Db.uses krow' = 5 + 3
    ∧ solutions st' !! "sol_0000000a"%string = None.
Proof.
  destruct (executeMerge_sums sol_b sol_a
              ["oauth"; "google"]%string ["auth"; "oauth"]%string
              (sample_row "OAuth with Google auth" unit_vector 5 1
                 ["oauth"; "google"]%string)
              300 three_solutions)
    as (st' & krow' & Hrun & Hk & Huses & _ & _ & _ & _ & Hr & _).
  - discriminate.
  - vm_compute. reflexivity.
  - reflexivity.
  - reflexivity.
  - exists st', krow'. repeat split; assumption.
Defined.

(** A stored pair that is not merged: the tags of the first solution were
    edited to a text that is no JSON, and the call throws before it writes,
    so the counters of the kept row are not summed and the other row is
    still there. *)
Lemma executeMerge_sums_no_json_cex :
  solutions edited_solutions !! id sol_b
  = Some (sample_row "OAuth with Google auth" unit_vector 5 1
            ["oauth"; "google"]%string)
  ∧ solutions edited_solutions !! id sol_a_edited = Some edited_row
  ∧ sol_b = to_solution (id sol_b,
              sample_row "OAuth with Google auth" unit_vector 5 1
                ["oauth"; "google"]%string)
  ∧ sol_a_edited = to_solution (id sol_a_edited, edited_row)
  ∧ id sol_b ≠ id sol_a_edited
  ∧ executeMerge sol_b sol_a_edited 300 edited_solutions
    = (Err (SyntaxError "auth,oauth"), edited_solutions).
Proof.
  split; [by vm_compute|]. split; [by vm_compute|].
  split; [reflexivity|]. split; [reflexivity|].
  split; [discriminate|]. by vm_compute.
Qed.

(** A kept object that is no longer what is stored, as the loop passes it
    from its second merge on: after A was merged into B (uses 5 + 3),
    merging C (uses 1) into the B loaded before writes 5 + 1. *)
Example executeMerge_sample_stale :
  ∃ st1 row1 st2 row2,
    executeMerge sol_b sol_a 300 three_solutions = (Ok (), st1)
    ∧ solutions st1 !! id sol_b = Some row1
    ∧ Db.uses row1 = 8
    ∧ executeMerge sol_b sol_c 301 st1 = (Ok (), st2)
    ∧ solutions st2 !! id sol_b = Some row2
    ∧ Db.uses row2 = 6.
Proof. eexists _, _, _, _. vm_compute. repeat split. Qed.



End MergeProofs.

(* ===================================================================== *)
(** * Properties of the TypeScript parser                                *)
(* ===================================================================== *)

Module TsParserProofs.
Import Eff TsParser.
Local Open Scope eff_scope.

Lemma Node_ind' (Q : Node → Prop) :
  (∀ data children, Forall Q children → Q (mkNode data children)) →
  ∀ n, Q n.
Proof.
  intros Hnode. fix IH 1. intros [data children]. apply Hnode.
  induction children as [|c cs IHcs]; constructor; [apply IH | exact IHcs].
Qed.

Lemma out_app_empty_r o : out_app o empty_output = o.
Proof. destruct o. unfold out_app. simpl. by rewrite !app_nil_r. Qed.

Lemma out_app_empty_l o : out_app empty_output o = o.
Proof. by destruct o. Qed.

Lemma out_app_assoc o1 o2 o3 :
  out_app (out_app o1 o2) o3 = out_app o1 (out_app o2 o3).
Proof. unfold out_app. simpl. by rewrite !app_assoc. Qed.

(** ** Handlers only append *)

Section Appends.
Context {A B : Type}.

Lemma appends_ret (x : A) : appends (ret x : P A).
Proof. intros out. unfold ret. simpl. by rewrite out_app_empty_r. Qed.

Lemma appends_call (r : api A) : appends (call r : P A).
Proof. intros out. unfold call. simpl. by rewrite out_app_empty_r. Qed.

Lemma appends_bind (m : P A) (k : A → P B) :
  appends m → (∀ x, appends (k x)) → appends (bind m k).
Proof.
  intros Hm Hk out. unfold bind. rewrite (Hm out).
  destruct (m empty_output) as [[x|e] o1]; simpl; [|done].
  rewrite (Hk x (out_app out o1)), (Hk x o1). simpl.
  by rewrite out_app_assoc.
Qed.

End Appends.

Lemma appends_push_symbol s : appends (push_symbol s).
Proof.
  intros out. unfold push_symbol, modify, out_app. simpl. by rewrite app_nil_r.
Qed.

Lemma appends_push_import i : appends (push_import i).
Proof.
  intros out. unfold push_import, modify, out_app. simpl. by rewrite app_nil_r.
Qed.

Lemma appends_for_each {A} (body : A → P unit) xs :
  (∀ x, appends (body x)) → appends (for_each body xs).
Proof.
  intros Hbody. induction xs as [|x xs IH]; simpl.
  - apply appends_ret.
  - apply appends_bind; [apply Hbody | intros _; apply IH].
Qed.

Ltac appends_step :=
  first
    [ apply appends_ret
    | apply appends_call
    | apply appends_push_symbol
    | apply appends_push_import
    | apply appends_for_each; intros
    | apply appends_bind; [|intros]
    | match goal with
      | |- appends (match ?x with _ => _ end) => destruct x
      end ].

Lemma handle_appends data scope : appends (handle data scope).
Proof.
  destruct data; simpl;
    unfold handleFunctionDeclaration, handleClassDeclaration,
      handleInterfaceDeclaration, handleTypeAliasDeclaration,
      handleEnumDeclaration, handleVariableStatement, handleMethodDeclaration,
      handlePropertyDeclaration, handleImportDeclaration,
      handleExportDeclaration, handleExportAssignment;
    repeat appends_step.
Qed.

Lemma visit_unfold data children scope out :
  visit (mkNode data children) scope out =
  match handle data scope out with
  | (Ok _, out') => visit_children (child_scope data scope) children out'
  | (Err _, out') => out'
  end.
Proof. reflexivity. Qed.

Lemma visit_children_appends scope children :
  Forall (λ n, ∀ scope out, visit n scope out = out_app out (visit n scope empty_output))
         children →
  ∀ out, visit_children scope children out
         = out_app out (visit_children scope children empty_output).
Proof.
  unfold visit_children. induction 1 as [|c cs Hc _ IH]; intros out; simpl.
  - by rewrite out_app_empty_r.
  - rewrite IH, (IH (visit c scope empty_output)), Hc.
    by rewrite out_app_assoc.
Qed.

(** [visit] only appends as well. *)
Lemma visit_appends n :
  ∀ scope out, visit n scope out = out_app out (visit n scope empty_output).
Proof.
  induction n as [data children IH] using Node_ind'. intros scope out.
  rewrite !visit_unfold, (handle_appends data scope out).
  destruct (handle data scope empty_output) as [[u|e] o1]; simpl.
  - rewrite (visit_children_appends _ _ IH (out_app out o1)).
    rewrite (visit_children_appends _ _ IH o1).
    by rewrite out_app_assoc.
  - done.
Qed.

Lemma visit_children_app scope pre post out :
  visit_children scope (pre ++ post) out
  = out_app (visit_children scope pre out) (visit_children scope post empty_output).
Proof.
  unfold visit_children at 1. rewrite foldl_app.
  fold (visit_children scope pre out).
  fold (visit_children scope post (visit_children scope pre out)).
  apply visit_children_appends, Forall_forall. intros n _. apply visit_appends.
Qed.

Lemma visit_children_cons scope c cs out :
  visit_children scope (c :: cs) out
  = out_app (visit c scope out) (visit_children scope cs empty_output).
Proof.
  change (visit_children scope (c :: cs) out)
    with (visit_children scope cs (visit c scope out)).
  apply visit_children_appends, Forall_forall. intros n _. apply visit_appends.
Qed.

(** ** What is pushed stays in the result *)

Lemma out_sub_refl o : out_sub o o.
Proof. by split. Qed.

Lemma out_sub_trans o1 o2 o3 : out_sub o1 o2 → out_sub o2 o3 → out_sub o1 o3.
Proof. intros [? ?] [? ?]. split; by etrans. Qed.

Lemma out_sub_app_l o o' : out_sub o (out_app o o').
Proof. split; simpl; by apply sublist_inserts_r. Qed.

Lemma out_sub_app_r o o' : out_sub o' (out_app o o').
Proof. split; simpl; by apply sublist_inserts_l. Qed.

Lemma out_sub_app o1 o1' o2 o2' :
  out_sub o1 o1' → out_sub o2 o2' → out_sub (out_app o1 o2) (out_app o1' o2').
Proof. intros [? ?] [? ?]. split; simpl; by apply sublist_app. Qed.

Lemma pushed_in_visit data children scope :
  out_sub (pushed data scope) (visit (mkNode data children) scope empty_output).
Proof.
  unfold pushed. rewrite visit_unfold.
  destruct (handle data scope empty_output) as [[u|e] o1]; simpl.
  - rewrite visit_children_appends
      by (apply Forall_forall; intros n _; apply visit_appends).
    apply out_sub_app_l.
  - apply out_sub_refl.
Qed.

Lemma child_in_children scope c cs out :
  c ∈ cs → out_sub (visit c scope empty_output) (visit_children scope cs out).
Proof.
  intros Hc. revert out. induction cs as [|c' cs IH]; intros out.
  - by apply elem_of_nil in Hc.
  - rewrite visit_children_cons. apply elem_of_cons in Hc as [<-|Hc].
    + eapply out_sub_trans; [|apply out_sub_app_l].
      rewrite (visit_appends c scope out). apply out_sub_app_r.
    + eapply out_sub_trans; [|apply out_sub_app_r]. by apply IH.
Qed.

Lemma reached_in_root root rootScope n scope :
  reached root rootScope n scope →
  out_sub (visit n scope empty_output) (visit root rootScope empty_output).
Proof.
  induction 1 as [|data children scope child u out _ IH Hh Hc].
  - apply out_sub_refl.
  - eapply out_sub_trans; [|exact IH].
    rewrite visit_unfold, Hh. by apply child_in_children.
Qed.

(** Taking a construct out of a list of siblings takes nothing else out of
    the result. *)
Lemma visit_without_sibling data pre bad post scope out :
  out_sub (visit (mkNode data (pre ++ post)) scope out)
          (visit (mkNode data (pre ++ bad :: post)) scope out).
Proof.
  rewrite !visit_unfold.
  destruct (handle data scope out) as [[u|e] o1]; [|apply out_sub_refl].
  rewrite !visit_children_app, visit_children_cons.
  apply out_sub_app; [apply out_sub_refl|].
  eapply out_sub_trans; [|apply out_sub_app_r]. apply out_sub_refl.
Qed.

Lemma visit_throwing data children scope out e o :
  handle data scope empty_output = (Err e, o) →
  visit (mkNode data children) scope out = out_app out o.
Proof.
  intros Hh. rewrite visit_unfold, (handle_appends data scope out), Hh. done.
Qed.

(** ** Members are never flagged as exported *)

Section Keeps.
Context {A B : Type} (Q : Output → Prop).

Lemma keeps_ret (x : A) : keeps Q (ret x : P A).
Proof. by intros out. Qed.

Lemma keeps_call (r : api A) : keeps Q (call r : P A).
Proof. by intros out. Qed.

Lemma keeps_bind (m : P A) (k : A → P B) :
  keeps Q m → (∀ x, keeps Q (k x)) → keeps Q (bind m k).
Proof.
  intros Hm Hk out HQ. unfold bind. specialize (Hm out HQ).
  destruct (m out) as [[x|e] o1]; simpl in *; [by apply Hk | done].
Qed.

Lemma keeps_for_each (body : A → P unit) xs :
  (∀ x, keeps Q (body x)) → keeps Q (for_each body xs).
Proof.
  intros Hbody. induction xs as [|x xs IH]; simpl.
  - by intros out.
  - intros out HQ. unfold bind. specialize (Hbody x out HQ).
    destruct (body x out) as [[u|e] o1]; simpl in *; [by apply IH | done].
Qed.

End Keeps.

Lemma keeps_push_symbol s :
  member_not_exported s → keeps members_ok (push_symbol s).
Proof.
  intros Hs out Hout. unfold members_ok in *. simpl.
  apply Forall_app. split; [done|]. by constructor.
Qed.

Lemma keeps_push_import i : keeps members_ok (push_import i).
Proof. by intros out Hout. Qed.

Ltac keeps_step :=
  first
    [ apply keeps_ret
    | apply keeps_call
    | apply keeps_push_import
    | apply keeps_push_symbol;
      unfold member_not_exported; simpl; repeat case_match;
      intros [?|?]; (discriminate || done)
    | apply keeps_for_each; intros
    | apply keeps_bind; [|intros]
    | match goal with
      | |- keeps _ (match ?x with _ => _ end) => destruct x
      end ].

Lemma handle_keeps data scope : keeps members_ok (handle data scope).
Proof.
  destruct data; simpl;
    unfold handleFunctionDeclaration, handleClassDeclaration,
      handleInterfaceDeclaration, handleTypeAliasDeclaration,
      handleEnumDeclaration, handleVariableStatement, handleMethodDeclaration,
      handlePropertyDeclaration, handleImportDeclaration,
      handleExportDeclaration, handleExportAssignment;
    repeat keeps_step.
Qed.

Lemma visit_keeps n : ∀ scope out, members_ok out → members_ok (visit n scope out).
Proof.
  induction n as [data children IH] using Node_ind'. intros scope out Hout.
  rewrite visit_unfold. pose proof (handle_keeps data scope out Hout) as Hh.
  destruct (handle data scope out) as [[u|e] o1]; simpl in Hh; [|done].
  unfold visit_children. generalize (child_scope data scope). intros cs.
  revert o1 Hh. induction IH as [|c rest Hc _ IHrest]; intros o1 Hh; simpl.
  - done.
  - apply IHrest. by apply Hc.
Qed.

(** The class symbol takes its flag from the [export] modifier. *)
Lemma class_symbol_exported name hd scope s :
  s ∈ out_symbols (pushed (ClassDeclaration name hd) scope) →
  kind s = KClass ∧ exported s = hasExportModifier hd.
Proof.
  unfold pushed. simpl. unfold handleClassDeclaration.
  destruct name as [text|]; [|by intros ?%elem_of_nil].
  unfold bind, call, getLocation, rbind.
  destruct (startPosition hd); [|by intros ?%elem_of_nil].
  destruct (endPosition hd); [|by intros ?%elem_of_nil].
  simpl. intros ->%list_elem_of_singleton. done.
Qed.

(** ** What a well-formed declaration contributes *)

Lemma for_each_prefix {A} (body : A → P unit) pre d post :
  (∀ x, appends (body x)) →
  Forall (λ x, (body x empty_output).1 = Ok ()) pre →
  out_sub (body d empty_output).2 (for_each body (pre ++ d :: post) empty_output).2.
Proof.
  intros Happ Hpre. induction Hpre as [|x pre Hx _ IH]; simpl; unfold bind.
  - destruct (body d empty_output) as [[u|e] o1] eqn:E; simpl; [|apply out_sub_refl].
    rewrite (appends_for_each body post Happ o1). simpl. apply out_sub_app_l.
  - destruct (body x empty_output) as [[u|e] o1] eqn:E; simpl in Hx; [|done].
    rewrite (appends_for_each body (pre ++ d :: post) Happ o1). simpl.
    eapply out_sub_trans; [exact IH|apply out_sub_app_r].
Qed.

Lemma for_each_singleton {A} (body : A → P unit) d out :
  (for_each body [d] out).2 = (body d out).2.
Proof. simpl. unfold bind. by destruct (body d out) as [[u|e] o]. Qed.

Lemma variable_pushed hd isConst pre d post scope :
  Forall variable_returns pre →
  out_sub (handleVariableStatement hd isConst [d] scope empty_output).2
          (pushed (VariableStatement hd isConst (pre ++ d :: post)) scope).
Proof.
  intros Hpre. unfold pushed. cbn [handle]. unfold handleVariableStatement.
  match goal with
  | |- out_sub (for_each ?b [d] _).2 _ => set (body := b)
  end.
  rewrite for_each_singleton. apply (for_each_prefix body pre d post).
  - intros x. subst body. cbv beta. repeat appends_step.
  - eapply Forall_impl; [exact Hpre|]. intros x Hx. unfold variable_returns in Hx.
    subst body. cbv beta.
    destruct (decl_name x); [|done].
    destruct Hx as ([loc ->] & [endLoc ->] & Hsig). unfold bind, call. simpl.
    destruct (decl_initializer x) as [[fn|]|]; try done.
    destruct Hsig as [sig ->]. done.
Qed.

Lemma declares_pushed scope data s :
  declares scope data s → s ∈ out_symbols (pushed data scope).
Proof.
  destruct 1 as [text hd fn loc endLoc sig H1 H2 H3
                |text hd loc endLoc H1 H2
                |text hd loc endLoc H1 H2
                |text hd ty loc endLoc sig H1 H2 H3
                |text hd loc endLoc H1 H2
                |hd isConst pre d post text loc endLoc fn sig Hpre Hn H1 H2 Hi H3
                |hd isConst pre d post text loc endLoc Hpre Hn H1 H2 Hi
                |text hd fn loc endLoc sig H1 H2 H3
                |text hd loc H1
                |text hd loc sig H1].
  - unfold pushed. simpl.
    unfold handleFunctionDeclaration, bind, call, getLocation, rbind.
    rewrite H1, H2. simpl. fold (getFunctionSignature fn). rewrite H3. simpl.
    apply list_elem_of_here.
  - unfold pushed. simpl. unfold handleClassDeclaration, bind, call, getLocation, rbind.
    rewrite H1, H2. simpl. apply list_elem_of_here.
  - unfold pushed. simpl. unfold handleInterfaceDeclaration, bind, call, getLocation, rbind.
    rewrite H1, H2. simpl. apply list_elem_of_here.
  - unfold pushed. simpl. unfold handleTypeAliasDeclaration, bind, call, getLocation, rbind.
    rewrite H1, H2, H3. simpl. apply list_elem_of_here.
  - unfold pushed. simpl. unfold handleEnumDeclaration, bind, call, getLocation, rbind.
    rewrite H1, H2. simpl. apply list_elem_of_here.
  - eapply elem_of_sublist; [|by apply variable_pushed].
    unfold handleVariableStatement. rewrite for_each_singleton.
    unfold bind, call, getLocation, rbind.
    rewrite Hn, H1, H2, Hi. simpl. fold (getFunctionSignature fn). rewrite H3. simpl.
    apply list_elem_of_here.
  - eapply elem_of_sublist; [|by apply variable_pushed].
    unfold handleVariableStatement. rewrite for_each_singleton.
    unfold bind, call, getLocation, rbind.
    rewrite Hn, H1, H2. destruct Hi as [-> | ->]; simpl; apply list_elem_of_here.
  - unfold pushed. simpl. unfold handleMethodDeclaration, bind, call, getLocation, rbind.
    rewrite H1, H2. simpl. fold (getFunctionSignature fn). rewrite H3. simpl.
    apply list_elem_of_here.
  - unfold pushed. simpl. unfold handlePropertyDeclaration, bind, call, getLocation, rbind.
    rewrite H1. simpl. apply list_elem_of_here.
  - unfold pushed. simpl. unfold handlePropertyDeclaration, bind, call, getLocation, rbind.
    rewrite H1. simpl. apply list_elem_of_here.
Qed.

Lemma declares_import_pushed scope data i :
  declares_import data i → i ∈ out_imports (pushed data scope).
Proof.
  destruct 1 as [source hd loc H1
                |source hd clause text loc H1 Hn
                |source hd clause text loc H1 Hb
                |source hd clause elements element loc H1 Hb He];
    unfold pushed; simpl;
    unfold handleImportDeclaration, bind, call, getLocation, rbind; rewrite H1; simpl.
  - apply list_elem_of_here.
  - rewrite Hn. simpl.
    destruct (clause_namedBindings clause) as [[text'|elements]|]; simpl.
    + apply list_elem_of_here.
    + match goal with
      | |- _ ∈ out_imports (for_each ?b _ ?o).2 =>
          rewrite (appends_for_each b elements (λ x, appends_push_import _) o)
      end.
      simpl. apply list_elem_of_here.
    + apply list_elem_of_here.
  - rewrite Hb. destruct (clause_name clause); simpl;
      [apply list_elem_of_further|]; apply list_elem_of_here.
  - rewrite Hb.
    apply list_elem_of_split in He as (pre & post & ->).
    set (body := λ element : ImportSpecifier, push_import _).
    assert (Happ : ∀ x, appends (body x)) by (intros x; apply appends_push_import).
    assert (Hin : mkImport
                    (match spec_propertyName element with
                     | Some original => original
                     | None => spec_name element
                     end)
                    (match spec_propertyName element with
                     | Some _ => Some (spec_name element)
                     | None => None
                     end)
                    source false false
                    (clause_isTypeOnly clause || spec_isTypeOnly element)
                    (lc_line loc + 1)
                  ∈ out_imports (for_each body (pre ++ element :: post) empty_output).2).
    { eapply elem_of_sublist;
        [|apply (for_each_prefix body pre element post Happ)].
      - subst body. simpl. destruct (spec_propertyName element); apply list_elem_of_here.
      - apply Forall_forall. by intros x _. }
    destruct (clause_name clause); simpl.
    + rewrite (appends_for_each body _ Happ). simpl. by apply list_elem_of_further.
    + exact Hin.
Qed.

Section WithTypeScript.
Context `{TypeScript}.

(** C8 (as amended): [parseFile] always yields a [ParseResult].  When
    [createSourceFile] throws, the result has no symbols, no imports and one
    error string.  Otherwise there is no error entry, and what is pushed for
    every node the visit gets to is in the result, whatever happens at other
    nodes; in particular the symbol of every well-formed declaration and
    the imports of every well-formed import declaration the visit gets to
    are returned.  The visit gets to the root and to the children of every
    node it got to whose handler did not throw: a node whose handler throws
    adds only what it had pushed before the throw and its children are not
    visited.  The output for a list of siblings without one of them is
    contained, in order, in the output with it. *)
Theorem parseFile_resilient filePath content :
  match createSourceFile filePath content (getScriptKind filePath) with
  | Err message =>
      parseFile filePath content
      = mkParseResult [] [] (Some [String.append "Parse error: " message])
  | Ok root =>
      errors (parseFile filePath content) = None
      ∧ (∀ data children scope,
           reached root None (mkNode data children) scope →
           out_symbols (pushed data scope) `sublist_of` symbols (parseFile filePath content)
           ∧ out_imports (pushed data scope) `sublist_of` imports (parseFile filePath content))
      ∧ (∀ data children scope s,
           reached root None (mkNode data children) scope →
           declares scope data s →
           s ∈ symbols (parseFile filePath content))
      ∧ (∀ data children scope i,
           reached root None (mkNode data children) scope →
           declares_import data i →
           i ∈ imports (parseFile filePath content))
  end
  ∧ (∀ data children scope out e o,
       handle data scope empty_output = (Err e, o) →
       visit (mkNode data children) scope out = out_app out o)
  ∧ (∀ data pre bad post scope out,
       out_sub (visit (mkNode data (pre ++ post)) scope out)
               (visit (mkNode data (pre ++ bad :: post)) scope out)).
Proof.
  split; [|split; [apply visit_throwing | apply visit_without_sibling]].
  unfold parseFile.
  destruct (createSourceFile filePath content (getScriptKind filePath))
    as [root|message]; [|done].
  assert (Hsub : ∀ data children scope,
    reached root None (mkNode data children) scope →
    out_sub (pushed data scope) (visit root None empty_output)).
  { intros data children scope Hreach.
    apply (out_sub_trans (pushed data scope)
             (visit (mkNode data children) scope empty_output)).
    - apply pushed_in_visit.
    - by apply reached_in_root. }
  split; [done|]. cbn [symbols imports].
  split; [intros data children scope Hreach; exact (Hsub data children scope Hreach)|].
  split.
  - intros data children scope s Hreach Hs.
    eapply elem_of_sublist; [by apply declares_pushed|].
    by apply (proj1 (Hsub data children scope Hreach)).
  - intros data children scope i Hreach Hi.
    eapply elem_of_sublist; [by apply (declares_import_pushed scope)|].
    by apply (proj2 (Hsub data children scope Hreach)).
Qed.

(** C10: every symbol of kind [method] or [property] in the result of
    [parseFile] has [exported = false] and [isDefault = false], whatever the
    modifiers of the enclosing class are; the symbol of a class declaration
    is the one that takes the [export] modifier of that declaration. *)
Theorem members_never_exported filePath content :
  (∀ s, s ∈ symbols (parseFile filePath content) →
        kind s = KMethod ∨ kind s = KProperty →
        exported s = false ∧ isDefault s = false)
  ∧ (∀ name hd scope s,
        s ∈ out_symbols (pushed (ClassDeclaration name hd) scope) →
        kind s = KClass ∧ exported s = hasExportModifier hd).
Proof.
  split; [|apply class_symbol_exported].
  assert (Hall : members_ok
                   (mkOutput (symbols (parseFile filePath content))
                             (imports (parseFile filePath content)))).
  { unfold parseFile.
    destruct (createSourceFile filePath content (getScriptKind filePath))
      as [root|message]; simpl.
    - pose proof (visit_keeps root None empty_output) as Hv.
      unfold members_ok in *. simpl in Hv. apply Hv. constructor.
    - constructor. }
  intros s Hs. unfold members_ok in Hall. rewrite Forall_forall in Hall.
  by apply Hall.
Qed.

End WithTypeScript.

(** ** Runs against the test doubles *)

Import Mock.

(** The class is exported, its method and property are not; the function
    whose position lookup throws is skipped together with the function
    nested in it, and the import after it is still returned. *)
Example parseFile_sample :
  parseFile "src/repo.ts" "class"
  = mkParseResult
      [ mkSymbol "Repo" KClass 1 0 (Some 4) true false None None;
        mkSymbol "find" KMethod 2 2 (Some 2) false false (Some "Repo"%string)
          (Some "(id: string): Row"%string);
        mkSymbol "rows" KProperty 3 2 None false false (Some "Repo"%string)
          (Some "Row[]"%string) ]
      [ mkImport "fs" None "fs" true false false 8 ]
      None.
Proof. vm_compute. reflexivity. Qed.

Example parseFile_sample_throw :
  parseFile "src/repo.ts" "boom"
  = mkParseResult [] []
      (Some ["Parse error: Maximum call stack size exceeded"%string]).
Proof. vm_compute. reflexivity. Qed.

Lemma parseFile_resilient_witness :
  [ mkImport "fs" None "fs" true false false 8 ]
    `sublist_of` imports (parseFile "src/repo.ts" "class").
Proof.
  pose proof (parseFile_resilient "src/repo.ts" "class") as [Hparse _].
  change (createSourceFile "src/repo.ts" "class" (getScriptKind "src/repo.ts"))
    with (Ok class_tree : api Node) in Hparse.
  destruct Hparse as (_ & Hreached & _).
  refine (proj2 (Hreached
    (ImportDeclaration (StringLiteral "fs")
       (mkHeader [] (at_line 7 0) (at_line 7 20))
       (Some (mkImportClause false (Some "fs"%string) None)))
    [] None _)).
  eapply (reached_child class_tree None OtherNode _ None _ ()).
  - apply reached_root.
  - reflexivity.
  - do 2 apply list_elem_of_further. apply list_elem_of_here.
Defined.

(** A well-formed construct that is not returned: the function [inner] is
    a node of the tree and on its own stands for a symbol, but it is nested
    in a function whose position lookup throws, so the visit never gets to
    it; no symbol of that name is returned and no error is recorded. *)
Lemma parseFile_resilient_nested_cex :
  let inner :=
    FunctionDeclaration (Some "inner"%string)
      (mkHeader [] (at_line 5 2) (at_line 5 20)) (mkFunctionLike [] None) in
  createSourceFile "src/repo.ts" "class" (getScriptKind "src/repo.ts")
  = Ok class_tree
  ∧ mkNode inner [] ∈ nodes class_tree
  ∧ declares None inner
      (mkSymbol "inner" KFunction 6 2 (Some 6) false false None (Some "()"%string))
  ∧ ("inner"%string ∉ name <$> symbols (parseFile "src/repo.ts" "class"))
  ∧ errors (parseFile "src/repo.ts" "class") = None.
Proof.
  intros inner. subst inner.
  split; [reflexivity|].
  split.
  { cbn. repeat first [apply list_elem_of_here | apply list_elem_of_further]. }
  split.
  { apply (declares_function None "inner"
             (mkHeader [] (at_line 5 2) (at_line 5 20)) (mkFunctionLike [] None)
             (mkLineAndCharacter 5 2) (mkLineAndCharacter 5 20) "()");
      reflexivity. }
  split; [|reflexivity].
  apply (bool_decide_unpack _). vm_compute. exact I.
Qed.

Lemma members_never_exported_witness :
  let s := mkSymbol "find" KMethod 2 2 (Some 2) false false (Some "Repo"%string)
             (Some "(id: string): Row"%string) in
  exported s = false ∧ isDefault s = false.
Proof.
  intros s.
  apply (proj1 (members_never_exported "src/repo.ts" "class") s).
  - vm_compute. apply list_elem_of_further, list_elem_of_here.
  - left. reflexivity.
Defined.

End TsParserProofs.

(* ===================================================================== *)
(** * Facts about strings                                                 *)
(* ===================================================================== *)

Module JsFacts.

Lemma substring_all s n :
  (String.length s ≤ n)%nat → String.substring 0 n s = s.
Proof.
  revert n. induction s as [|c s IH]; intros n Hn; destruct n; simpl in *;
    try done; try lia.
  f_equal. apply IH. lia.
Qed.


Lemma append_length s t :
  String.length (String.append s t) = (String.length s + String.length t)%nat.
Proof. induction s as [|c s IH]; simpl; [done|]. by rewrite IH. Qed.


Lemma append_assoc s t u :
  String.append (String.append s t) u = String.append s (String.append t u).
Proof.
  induction s as [|c s IH]; [done|].
  change (String c (String.append (String.append s t) u)
          = String c (String.append s (String.append t u))). by f_equal.
Qed.

Lemma substring_skip p s n :
  String.substring (String.length p) n (String.append p s) = String.substring 0 n s.
Proof. induction p as [|c p IH]; [done|]. exact IH. Qed.

(** A text ends with what was appended to it. *)
Lemma endsWith_append p suffix : Js.endsWith suffix (String.append p suffix) = true.
Proof.
  unfold Js.endsWith. rewrite append_length. apply andb_true_intro. split.
  - apply Nat.leb_le. lia.
  - replace (String.length p + String.length suffix - String.length suffix)%nat
      with (String.length p) by lia.
    rewrite substring_skip, substring_all by done. apply String.eqb_refl.
Qed.

(** The pieces of [a + sep + b] are the pieces of [a] and those of [b]. *)
Lemma split_from_app sep a b piece :
  Js.split_from sep (String.append a (String sep b)) piece
  = Js.split_from sep a piece ++ Js.split_from sep b EmptyString.
Proof.
  revert piece. induction a as [|c a IH]; intros piece.
  - change (String.append EmptyString (String sep b)) with (String sep b).
    simpl. by rewrite Ascii.eqb_refl.
  - change (String.append (String c a) (String sep b))
      with (String c (String.append a (String sep b))).
    simpl. destruct (Ascii.eqb c sep); by rewrite IH.
Qed.

Lemma split_app sep a b :
  Js.split sep (String.append a (String sep b)) = Js.split sep a ++ Js.split sep b.
Proof. apply split_from_app. Qed.

End JsFacts.

(* ===================================================================== *)
(** * More on the file diff                                              *)
(* ===================================================================== *)

Module IndexerExtras.
Import Indexer IndexerProofs.

(** X1: [hasChanges] holds exactly when [getChangedFileCount] is positive,
    that is, when one of the three lists has an entry. *)
Theorem hasChanges_iff_count diff :
  hasChanges diff = true ↔ 0 < getChangedFileCount diff.
Proof.
  unfold hasChanges, getChangedFileCount.
  rewrite !orb_true_iff, !bool_decide_eq_true. lia.
Qed.

(** The decimal text of a count starts with a digit, so not with [N]. *)
Lemma number_to_string_head n :
  ∃ c rest, Js.number_to_string n = String c rest
            ∧ String c EmptyString ≠ "N"%string.
Proof.
  unfold Js.number_to_string, NilZero.string_of_uint.
  destruct (Nat.to_uint n); simpl; eexists _, _; (split; [reflexivity|discriminate]).
Qed.

Lemma join_head c rest tail parts :
  ∃ rest', Js.join ", " (String.append (String c rest) tail :: parts) = String c rest'.
Proof. destruct parts; simpl; eauto. Qed.

Lemma summary_part_head n tail parts :
  Js.join ", " (String.append (Js.number_to_string n) tail :: parts)
  ≠ "No changes"%string.
Proof.
  destruct (number_to_string_head n) as (c & rest & -> & Hc).
  destruct (join_head c rest tail parts) as [rest' ->].
  intros [= ->]. by apply Hc.
Qed.

(** X2: [getDiffSummary] answers [No changes] exactly when [hasChanges] is
    false: no summary of a diff with an entry reads [No changes]. *)
Theorem getDiffSummary_no_changes diff :
  getDiffSummary diff = "No changes"%string ↔ hasChanges diff = false.
Proof.
  unfold getDiffSummary, hasChanges.
  destruct diff as [a m d]; simpl.
  destruct a as [|fa a], m as [|fm m], d as [|fd d];
    cbn [added modified deleted];
    repeat first [ rewrite bool_decide_eq_true_2 by (simpl; lia)
                 | rewrite bool_decide_eq_false_2 by (simpl; lia) ];
    cbn [app orb];
    try (split; [done|done]);
    (split; [|done]);
    intros Heq; exfalso; revert Heq; apply summary_part_head.
Qed.

(** X3: the two ends of indexing.  Against an empty index every scanned
    file is added, in scan order, and nothing is modified or deleted;
    against an empty scan nothing is added or modified and every indexed
    path is deleted. *)
Theorem computeDiff_empty_sides scanned (ix : gmap string RepoFileRow) :
  computeDiff scanned ∅ = mkFileDiff scanned [] []
  ∧ computeDiff [] ix = mkFileDiff [] [] (fst <$> map_to_list ix).
Proof.
  split.
  - unfold computeDiff. rewrite loop_filters. simpl.
    rewrite map_to_list_empty. simpl. f_equal.
    + induction scanned as [|f scanned IH]; [done|].
      rewrite filter_cons_True by apply lookup_empty. by f_equal.
    + induction scanned as [|f scanned IH]; [done|].
      rewrite filter_cons_False; [done|].
      intros (row & Hrow & _). by rewrite lookup_empty in Hrow.
  - unfold computeDiff. simpl. f_equal.
    induction (fst <$> map_to_list ix) as [|p ps IH]; [done|].
    rewrite filter_cons_True by set_solver. by f_equal.
Qed.

(** X4: the diff of a scan is empty exactly when every scanned path is
    indexed with an mtime that is not older than the scanned one and every
    indexed path was scanned; a file whose mtime went back is not reported.
    In any case at most one entry per scanned file and per indexed path is
    reported. *)
Theorem computeDiff_quiet_iff scanned (ix : gmap string RepoFileRow) :
  (hasChanges (computeDiff scanned ix) = false ↔
     (∀ f, f ∈ scanned → ∃ row, ix !! path f = Some row ∧ mtime f ≤ row_mtime row)
     ∧ (∀ p, is_Some (ix !! p) → ∃ f, f ∈ scanned ∧ path f = p))
  ∧ getChangedFileCount (computeDiff scanned ix)
    ≤ Z.of_nat (length scanned) + Z.of_nat (size ix).
Proof.
  split.
  - assert (Hnil : ∀ {A} (l : list A), (0 < Z.of_nat (length l)) ↔ l ≠ []).
    { intros A [|x l]; simpl; split; (done || lia). }
    unfold hasChanges. rewrite !orb_false_iff, !bool_decide_eq_false, !Hnil.
    rewrite computeDiff_added, computeDiff_modified.
    split.
    + intros [[Ha Hm] Hd].
      apply dec_stable in Ha, Hm, Hd. split.
      * intros f Hf. destruct (ix !! path f) as [row|] eqn:E.
        -- exists row. split; [done|].
           destruct (decide (row_mtime row < mtime f)) as [Hlt|]; [|lia].
           exfalso. eapply elem_of_nil. rewrite <- Hm.
           apply list_elem_of_filter. split; [|done]. by exists row.
        -- exfalso. eapply elem_of_nil. rewrite <- Ha.
           by apply list_elem_of_filter.
      * intros p Hp. destruct (decide (p ∈ path <$> scanned)) as [Hin|Hno].
        { apply list_elem_of_fmap in Hin as (f & -> & Hf). eauto. }
        exfalso. eapply (elem_of_nil p). rewrite <- Hd.
        apply computeDiff_deleted. split; [done|].
        intros f Hf Hpf. apply Hno, list_elem_of_fmap. eauto.
    + intros [Hs Hall]. repeat split; intros Hne; apply Hne; apply elem_of_nil_inv.
      * intros f [Hn Hf]%list_elem_of_filter.
        destruct (Hs f Hf) as (row & Hrow & _). unfold is_added in Hn. congruence.
      * intros f [(row & Hrow & Hlt) Hf]%list_elem_of_filter.
        destruct (Hs f Hf) as (row' & Hrow' & Hle). simplify_eq. lia.
      * intros p [Hp Hno]%computeDiff_deleted.
        destruct (Hall p Hp) as (f & Hf & Hpf). by apply (Hno f).
  - unfold getChangedFileCount.
    assert (length (added (computeDiff scanned ix))
            + length (modified (computeDiff scanned ix)) ≤ length scanned)%nat.
    { rewrite computeDiff_added, computeDiff_modified.
      induction scanned as [|f scanned IH]; simpl; [done|].
      rewrite !filter_cons.
      destruct (decide (is_added ix f)) as [Ha|]; destruct (decide (is_modified ix f))
        as [(row & Hrow & _)|]; simpl; try (unfold is_added in Ha; congruence);
        lia. }
    assert (length (deleted (computeDiff scanned ix)) ≤ size ix)%nat.
    { unfold computeDiff. simpl. etrans; [apply length_filter|].
      by rewrite length_fmap, length_map_to_list. }
    lia.
Qed.

End IndexerExtras.

(* ===================================================================== *)
(** * More on the store                                                  *)
(* ===================================================================== *)

Module StoreExtras.
Import Eff Db Store SortProofs StoreProofs JsFacts.


Section WithHelpers.
Context `{Helpers}.

(** [store_new] either throws and leaves the database as it is, or inserts
    the new row at a fresh id, after the complexity check. *)
Lemma store_new_cases input env id e st :
  (∃ err, store_new input env id e st = (Err err, st))
  ∨ (store_new input env id e st
     = (Ok (new_result input id),
        mkState (<[id := new_row input env e]> (solutions st)) (usage_log st))
     ∧ solutions st !! id = None
     ∧ 1 ≤ complexity (new_row input env e) ≤ 10
     ∧ ∀ target, truthy (in_supersedes input) = Some target →
                 is_Some (solutions st !! target)).
Proof.
  unfold store_new, bind, select_solution, gets, throw, ret, insert_solution.
  destruct (truthy (in_supersedes input)) as [target|] eqn:Et;
    [destruct (solutions st !! target) eqn:Es|];
    repeat case_bool_decide; simpl; try (left; by eexists);
    right; (split; [done|]); (split; [by apply eq_None_not_Some|]);
    (split; [done|]); intros t Ht; simplify_eq; by eexists.
Qed.

(** The three ways a call ends: a throw with nothing written, a duplicate
    with nothing written, or an insert at a fresh id. *)
Lemma matrixStore_cases input env st :
  (∃ err, matrixStore input env st = (Err err, st))
  ∨ (∃ dup row,
       matrixStore input env st = (Ok (duplicate_result input dup row), st)
       ∧ solutions st !! match_id dup = Some row
       ∧ (9 # 10 <= similarity dup)%Q)
  ∨ ∃ e id,
      getEmbedding (in_problem input) = Some e
      ∧ id = String.append "sol_" (String.substring 0 8 (randomUUID env))
      ∧ matrixStore input env st
        = (Ok (new_result input id),
           mkState (<[id := new_row input env e]> (solutions st)) (usage_log st))
      ∧ solutions st !! id = None
      ∧ 1 ≤ complexity (new_row input env e) ≤ 10
      ∧ ∀ target, truthy (in_supersedes input) = Some target →
                  is_Some (solutions st !! target).
Proof.
  set (id := String.append "sol_" (String.substring 0 8 (randomUUID env))).
  destruct (getEmbedding (in_problem input)) as [e|] eqn:He.
  2: { left. exists ModelUnavailable. unfold matrixStore. by rewrite He. }
  assert (Hrun : matrixStore input env st =
                 match searchSimilarSolutions e 1 (9 # 10) st with
                 | dup :: _ =>
                     match solutions st !! match_id dup with
                     | Some row => (Ok (duplicate_result input dup row), st)
                     | None => store_new input env id e st
                     end
                 | [] => store_new input env id e st
                 end).
  { unfold matrixStore. rewrite He. unfold bind at 1. unfold gets.
    destruct (searchSimilarSolutions e 1 (9 # 10) st) as [|dup rest]; [done|].
    unfold bind, select_solution, gets, ret.
    by destruct (solutions st !! match_id dup). }
  rewrite Hrun. clear Hrun.
  destruct (searchSimilarSolutions e 1 (9 # 10) st) as [|dup rest] eqn:Es.
  - destruct (store_new_cases input env id e st)
      as [Herr|(Hrun & Hfresh & Hc & Hsup)]; [by left|].
    right. right. exists e, id.
    split; [done|]. split; [done|]. split; [exact Hrun|].
    split; [done|]. split; [exact Hc | exact Hsup].
  - assert (Hin : dup ∈ searchSimilarSolutions e 1 (9 # 10) st)
      by (rewrite Es; apply list_elem_of_here).
    unfold searchSimilarSolutions in Hin.
    apply elem_of_take in Hin as (i & Hi & _).
    apply list_elem_of_lookup_2, elem_of_sort_desc, elem_of_hits in Hi
      as (row & Hrow & _ & Hle).
    right. left. exists dup, row. by rewrite Hrow.
Qed.

(** X5: whatever a call of [matrixStore] does, every row that was stored
    before is stored unchanged after it and the audit log is untouched; the
    table grows by at most one row, and by none when the call throws. *)
Theorem matrixStore_keeps_rows input env st :
  let out := matrixStore input env st in
  (∀ id row, solutions st !! id = Some row → solutions out.2 !! id = Some row)
  ∧ usage_log out.2 = usage_log st
  ∧ (size (solutions out.2) = size (solutions st)
     ∨ size (solutions out.2) = S (size (solutions st)))
  ∧ (∀ err, out.1 = Err err → out.2 = st).
Proof.
  intros out. subst out.
  destruct (matrixStore_cases input env st)
    as [[err ->]|[(dup & row & -> & _)|(e & id & _ & _ & -> & Hfresh & _)]];
    simpl; try (repeat split; (done || by left)).
  repeat split.
  - intros id' row Hrow. rewrite lookup_insert_ne; [done|]. congruence.
  - right. by apply map_size_insert_None.
  - done.
Qed.

(** The reported similarity never falls below the threshold. *)
Lemma round3_threshold s : (9 # 10 <= s)%Q → (9 # 10 <= round3 s)%Q.
Proof.
  intros Hs. unfold round3.
  assert (Hfl : (900 <= Qfloor (s * 1000 + (1 # 2)))%Z).
  { rewrite <- (Qfloor_Z 900). apply Qfloor_resp_le.
    change (inject_Z 900) with 900%Q. lra. }
  rewrite Zle_Qle in Hfl.
  set (n := inject_Z (Qfloor (s * 1000 + (1 # 2)))) in *.
  change (inject_Z 900) with 900%Q in Hfl.
  unfold Qdiv. change (/ 1000)%Q with (1 # 1000)%Q. lra.
Qed.

(** X7: a result with status [duplicate] carries a similarity and it is at
    least 0.9 (also after rounding); any other result carries none. *)
Theorem duplicate_similarity_threshold input env st r st' :
  matrixStore input env st = (Ok r, st') →
  (res_status r = Duplicate →
     ∃ q, res_similarity r = Some q ∧ (9 # 10 <= q)%Q)
  ∧ (res_status r ≠ Duplicate → res_similarity r = None).
Proof.
  intros Hrun.
  destruct (matrixStore_cases input env st)
    as [[err Herr]|[(dup & row & Hdup & _ & Hle)|(e & id & _ & _ & Hnew & _)]].
  - congruence.
  - rewrite Hdup in Hrun. injection Hrun as <- <-. simpl. split; [|done].
    intros _. eexists. split; [done|]. by apply round3_threshold.
  - rewrite Hnew in Hrun. injection Hrun as <- <-. split; [|done].
    unfold new_result. simpl. by destruct (truthy (in_supersedes input)).
Qed.

(** X9: the row behind a stored result.  The id was free before the call
    and now holds a row with the problem, solution, scope and tags of the
    input, score 0.5 and all counters 0; an explicitly given complexity is
    stored as given and lies in 1..10; the row names a superseded solution
    exactly when the status is [superseded], and that solution exists. *)
Theorem stored_row_lookup input env st r st' :
  matrixStore input env st = (Ok r, st') →
  res_status r ≠ Duplicate →
  solutions st !! res_id r = None
  ∧ ∃ row,
      solutions st' !! res_id r = Some row
      ∧ problem row = in_problem input
      ∧ solution row = in_solution input
      ∧ scope row = in_scope input
      ∧ tags row = TagsJson (or_empty (in_tags input))
      ∧ score row = (1 # 2)%Q
      ∧ uses row = 0 ∧ successes row = 0
      ∧ partial_successes row = 0 ∧ failures row = 0
      ∧ (∀ c, in_complexity input = Some c → complexity row = c ∧ 1 ≤ c ≤ 10)
      ∧ supersedes row = truthy (in_supersedes input)
      ∧ (res_status r = Superseded ↔ is_Some (supersedes row))
      ∧ (∀ target, supersedes row = Some target →
                   is_Some (solutions st !! target)).
Proof.
  intros Hrun Hnd.
  destruct (matrixStore_cases input env st)
    as [[err Herr]|[(dup & row & Hdup & _)|(e & id & _ & _ & Hnew & Hfresh & Hc & Hsup)]].
  - congruence.
  - rewrite Hdup in Hrun. by injection Hrun as <- <-.
  - rewrite Hnew in Hrun. injection Hrun as <- <-. simpl.
    split; [done|]. exists (new_row input env e).
    split; [apply lookup_insert_eq|]. simpl.
    do 9 (split; [done|]).
    split.
    { intros c Hgiven. unfold new_row in Hc. simpl in Hc.
      rewrite Hgiven in Hc |- *. done. }
    split; [done|]. split; [|done].
    destruct (truthy (in_supersedes input)); split;
      first [done | by eexists | by intros [? ?]].
Qed.

(** X10: [matrixStore] keeps the table valid: if every row has a
    complexity in 1..10, a score in 0..1, non-negative counters and a
    [supersedes] that names a stored row, the same holds after the call. *)
Theorem matrixStore_keeps_valid input env st :
  table_valid st → table_valid (matrixStore input env st).2.
Proof.
  intros Hvalid.
  destruct (matrixStore_cases input env st)
    as [[err ->]|[(dup & row & -> & _)|(e & id & _ & _ & -> & Hfresh & Hc & Hsup)]];
    [done|done|].
  intros id' row. simpl. destruct (decide (id' = id)) as [->|Hne].
  - rewrite lookup_insert_eq. intros [= <-]. split.
    + unfold row_valid. simpl. repeat split; try done; apply Hc.
    + simpl. intros target Ht. destruct (Hsup target Ht) as [trow Htrow].
      destruct (decide (target = id)) as [->|Hti]; [congruence|].
      rewrite lookup_insert_ne by done. by eexists.
  - rewrite lookup_insert_ne by done. intros Hrow.
    destruct (Hvalid id' row Hrow) as [Hrv Href]. split; [done|].
    intros target Ht. destruct (Href target Ht) as [trow Htrow].
    destruct (decide (target = id)) as [->|Hti]; [congruence|].
    rewrite lookup_insert_ne by done. by eexists.
Qed.

(** X6: storing the same problem twice.  When the blob of an embedding
    decodes to that embedding and a vector has similarity at least 0.9 to
    itself, a second call with the problem of a call that stored a row
    returns status [duplicate] with the id of that row and writes nothing. *)
Theorem store_twice_is_duplicate input env st r st1 input2 env2 e s :
  getEmbedding (in_problem input) = Some e →
  bufferToEmbedding (embeddingToBuffer e) = Some e →
  cosineSimilarity e e = Some s →
  (9 # 10 <= s)%Q →
  matrixStore input env st = (Ok r, st1) →
  res_status r ≠ Duplicate →
  in_problem input2 = in_problem input →
  ∃ r2, matrixStore input2 env2 st1 = (Ok r2, st1)
        ∧ res_status r2 = Duplicate
        ∧ res_id r2 = res_id r.
Proof.
  intros He Hcodec Hself Hle Hrun Hnd Hsame.
  destruct (matrixStore_cases input env st)
    as [[err Herr]|[(dup & row & Hdup & _)|(e' & id & He' & _ & Hnew & Hfresh & _)]].
  - congruence.
  - rewrite Hdup in Hrun. by injection Hrun as <- <-.
  - rewrite Hnew in Hrun. injection Hrun as <- <-. simplify_eq. simpl.
    set (st1 := mkState _ _).
    assert (Hnear : near_duplicate e st1).
    { exists id, (new_row input env e), s. split; [apply lookup_insert_eq|].
      split; [|done]. unfold row_similarity. simpl. by rewrite Hcodec. }
    destruct (matrixStore_at_duplicate input2 env2 st1 e) as
      (dup & row & Hrun2 & Hrow & Hs & Hle2 & _); [by rewrite Hsame|done|].
    exists (duplicate_result input2 dup row). split; [done|]. split; [done|].
    simpl. destruct (decide (match_id dup = id)) as [|Hother]; [done|].
    exfalso. subst st1. simpl in Hrow. rewrite lookup_insert_ne in Hrow by done.
    assert (Hold : near_duplicate e st) by (by exists (match_id dup), row, (similarity dup)).
    destruct (matrixStore_at_duplicate input env st e He Hold) as (d & w & Hd & _).
    rewrite Hnew in Hd. injection Hd as Hd _. unfold new_result, duplicate_result in Hd.
    destruct (truthy (in_supersedes input)); discriminate.
Qed.

End WithHelpers.

(** ** Runs against the test doubles *)

Import Mock.

Lemma one_solution_valid : table_valid one_solution.
Proof.
  intros id row Hrow. unfold one_solution in Hrow. cbn [solutions] in Hrow.
  apply lookup_singleton_Some in Hrow as [<- <-].
  split; [|intros target Ht; discriminate].
  unfold row_valid. simpl. repeat split; (lia || (vm_compute; discriminate)).
Defined.

Lemma duplicate_similarity_threshold_witness :
  ∃ q, Some (round3 (40 # 41)) = Some q ∧ (9 # 10 <= q)%Q.
Proof.
  refine (proj1 (duplicate_similarity_threshold
            (sample_input "OAuth with Google auth" None) sample_env one_solution
            (duplicate_result (sample_input "OAuth with Google auth" None)
               (mkMatch "sol_0000000a" (40 # 41))
               (sample_row "OAuth integration with Google" near_vector 3 2
                  ["auth"%string]))
            one_solution _) _).
  - vm_compute. reflexivity.
  - reflexivity.
Defined.

Lemma stored_row_lookup_witness :
  ∃ row,
    solutions (matrixStore (sample_input "Rate limit the API" None) sample_env
                 one_solution).2 !! "sol_3f2a9c1e"%string = Some row
    ∧ score row = (1 # 2)%Q ∧ uses row = 0.
Proof.
  destruct (stored_row_lookup (sample_input "Rate limit the API" None) sample_env
              one_solution
              (new_result (sample_input "Rate limit the API" None) "sol_3f2a9c1e")
              (matrixStore (sample_input "Rate limit the API" None) sample_env
                 one_solution).2)
    as (_ & row & Hrow & _ & _ & _ & _ & Hscore & Huses & _).
  - vm_compute. reflexivity.
  - discriminate.
  - exists row. repeat split; assumption.
Defined.

Lemma matrixStore_keeps_valid_witness :
  table_valid (matrixStore (sample_input "Rate limit the API" None) sample_env
                 one_solution).2.
Proof. apply matrixStore_keeps_valid. exact one_solution_valid. Defined.

Lemma store_twice_is_duplicate_witness :
  ∃ r2, matrixStore (sample_input "Rate limit the API" (Some "sol_0000000a"%string))
          sample_env
          (matrixStore (sample_input "Rate limit the API" None) sample_env
             one_solution).2
        = (Ok r2, (matrixStore (sample_input "Rate limit the API" None) sample_env
                     one_solution).2)
        ∧ res_status r2 = Duplicate
        ∧ res_id r2 = "sol_3f2a9c1e"%string.
Proof.
  apply (store_twice_is_duplicate (sample_input "Rate limit the API" None)
           sample_env one_solution
           (new_result (sample_input "Rate limit the API" None) "sol_3f2a9c1e")
           _ _ sample_env far_vector 1%Q).
  - vm_compute. reflexivity.
  - vm_compute. reflexivity.
  - vm_compute. reflexivity.
  - vm_compute. discriminate.
  - vm_compute. reflexivity.
  - discriminate.
  - reflexivity.
Defined.

End StoreExtras.

(* ===================================================================== *)
(** * More on the merge command                                          *)
(* ===================================================================== *)

Module MergeExtras.
Import Eff Db Merge SortProofs MergeProofs.
Local Open Scope eff_scope.

(** X11: the two marks of [printMergePair] exclude each other and one of
    them is set; the marked solution is the one the loop keeps and the label
    of the recommendation names it.  The kept solution never has the lower
    score and on equal scores it is A. *)
Theorem keeper_is_recommended (pair : MergeCandidate) :
  marked_B pair = negb (marked_A pair)
  ∧ (marked_A pair = true →
       keeper pair = a pair ∧ removed pair = b pair
       ∧ (recommendation pair).1 = "A"%string)
  ∧ (marked_B pair = true →
       keeper pair = b pair ∧ removed pair = a pair
       ∧ (recommendation pair).1 = "B"%string)
  ∧ (score (removed pair) <= score (keeper pair))%Q
  ∧ ((score (a pair) == score (b pair))%Q → keeper pair = a pair).
Proof.
  unfold marked_A, marked_B, keeper, removed, recommendation, Js.Qgt_bool, Qle_bool.
  rewrite Z.ltb_antisym.
  destruct (Qnum (score (b pair)) * QDen (score (a pair))
            <=? Qnum (score (a pair)) * QDen (score (b pair)))%Z eqn:E; simpl.
  - repeat split; try done.
    + by apply Z.leb_le in E.
  - repeat split; try done.
    + apply Z.leb_gt in E. unfold Qle. lia.
    + intros Heq. unfold Qeq in Heq. apply Z.leb_gt in E. lia.
Qed.

Section WithNumbers.
Context `{Js.Numbers}.

Lemma parseArgs_step_threshold o arg :
  Qeq_bool (opt_threshold o) 0 = false →
  Qeq_bool (opt_threshold (parseArgs_step o arg)) 0 = false.
Proof.
  intros Ho. unfold parseArgs_step.
  repeat case_match; simpl; try done.
  unfold Js.number_or. repeat case_match; done.
Qed.

Lemma parseArgs_step_dryRun o arg :
  opt_dryRun (parseArgs_step o arg) = true ↔
  opt_dryRun o = true ∨ arg = "--dry-run"%string.
Proof.
  unfold parseArgs_step.
  destruct (Js.startsWith "--threshold=" arg) eqn:E1; simpl.
  { split; [by left|]. intros [? | ->]; [done|]. by vm_compute in E1. }
  destruct (Js.startsWith "--type=" arg) eqn:E2.
  { assert (arg ≠ "--dry-run"%string) by (intros ->; by vm_compute in E2).
    repeat case_match; simpl; naive_solver. }
  destruct (String.eqb arg "--dry-run") eqn:E3; simpl.
  - apply String.eqb_eq in E3. naive_solver.
  - apply String.eqb_neq in E3. naive_solver.
Qed.

(** X12: whatever the arguments, the threshold [parseArgs] returns is never
    0 (a [--threshold=0] or an unreadable number gives 0.8), and the dry-run
    flag is set exactly when [--dry-run] is among the arguments. *)
Theorem parseArgs_options (args : list string) :
  Qeq_bool (opt_threshold (parseArgs args)) 0 = false
  ∧ (opt_dryRun (parseArgs args) = true ↔ "--dry-run"%string ∈ args).
Proof.
  unfold parseArgs.
  assert (Hgen : ∀ o,
    (Qeq_bool (opt_threshold o) 0 = false →
     Qeq_bool (opt_threshold (foldl parseArgs_step o args)) 0 = false)
    ∧ (opt_dryRun (foldl parseArgs_step o args) = true ↔
       opt_dryRun o = true ∨ "--dry-run"%string ∈ args)).
  { induction args as [|arg args IH]; intros o; simpl.
    - split; [done|]. rewrite elem_of_nil. tauto.
    - destruct (IH (parseArgs_step o arg)) as [IH1 IH2]. split.
      + intros Ho. by apply IH1, parseArgs_step_threshold.
      + rewrite IH2, parseArgs_step_dryRun, elem_of_cons. naive_solver. }
  destruct (Hgen (mkMergeOptions (8 # 10) Solutions false)) as [H1 H2].
  split; [by apply H1|]. rewrite H2. simpl. naive_solver.
Qed.

End WithNumbers.

(** ** [executeMerge] outside the case of two stored solutions *)

Section WithJson.
Context `{Js.Json}.


(** X14: when the call returns and [keep] names no stored row, or the same
    row as [remove], the counters and tags passed in are written nowhere:
    all the call does to the table is to delete the row of [remove]. *)
Theorem executeMerge_keep_missing keep remove now st st' :
  executeMerge keep remove now st = (Ok (), st') →
  solutions st !! id keep = None ∨ id keep = id remove →
  solutions st' = delete (id remove) (solutions st).
Proof.
  intros Hrun Hcase.
  destruct (executeMerge_cases keep remove now st)
    as [(kt & rt & Hk & Hr & Hok)|[_ [text Herr]]]; [|congruence].
  rewrite Hok in Hrun. injection Hrun as <-.
  unfold merged_state. cbn [solutions].
  apply map_eq. intros i. destruct (decide (i = id remove)) as [->|Hir].
  - by rewrite !lookup_delete_eq.
  - rewrite !lookup_delete_ne by done.
    destruct (decide (i = id keep)) as [->|Hik].
    + destruct Hcase as [Hnone|Heq]; [|congruence].
      by rewrite lookup_alter_eq, Hnone.
    + by rewrite lookup_alter_ne.
Qed.

End WithJson.

Lemma filter_all {A} (f : A → bool) l :
  (∀ y, y ∈ l → f y = true) → List.filter f l = l.
Proof.
  induction l as [|y l IH]; intros Hall; simpl; [done|].
  rewrite Hall by left. f_equal. apply IH. intros z Hz. apply Hall. by right.
Qed.

Lemma spread_set_NoDup_id xs : NoDup xs → spread_set xs = xs.
Proof.
  induction 1 as [|x xs Hx _ IH]; simpl; [done|]. rewrite IH. f_equal.
  apply filter_all. intros y Hy. apply negb_true_iff, String.eqb_neq.
  intros ->. done.
Qed.

Lemma filter_filter {A} (f g : A → bool) l :
  List.filter f (List.filter g l) = List.filter (λ y, g y && f y) l.
Proof.
  induction l as [|y l IH]; simpl; [done|].
  destruct (g y) eqn:Eg; simpl; [|done].
  destruct (f y); simpl; by rewrite IH.
Qed.

Lemma spread_set_app xs ys :
  spread_set (xs ++ ys)
  = spread_set xs ++ List.filter (λ y, bool_decide (y ∉ xs)) (spread_set ys).
Proof.
  induction xs as [|x xs IH].
  - symmetry. apply filter_all. intros y _.
    apply bool_decide_eq_true_2, not_elem_of_nil.
  - change (x :: List.filter (λ y, negb (String.eqb x y)) (spread_set (xs ++ ys))
            = (x :: List.filter (λ y, negb (String.eqb x y)) (spread_set xs))
              ++ List.filter (λ y, bool_decide (y ∉ x :: xs)) (spread_set ys)).
    rewrite IH, List.filter_app, filter_filter. simpl. do 2 f_equal.
    apply List.filter_ext. intros y.
    destruct (decide (x = y)) as [->|Hne].
    + rewrite String.eqb_refl, andb_false_r. symmetry.
      apply bool_decide_eq_false_2. intros Hn. apply Hn. left.
    + rewrite (proj2 (String.eqb_neq x y)) by done. rewrite andb_true_r.
      apply bool_decide_ext. rewrite not_elem_of_cons. naive_solver.
Qed.

Section WithJson.
Context `{Js.Json}.

(** X15: the tags a merge leaves at the kept id keep the tags of the kept
    solution in front, in their order, followed by the tags only the removed
    solution has, in their order; when the removed solution brings no new
    tag the tags are those of the kept solution.  (For kept tags without
    repetition.) *)
Theorem merged_tags_order keep remove keepTags removeTags now st row' :
  parse_tags (tags keep) = Ok keepTags →
  parse_tags (tags remove) = Ok removeTags →
  NoDup keepTags →
  solutions (executeMerge keep remove now st).2 !! id keep = Some row' →
  Db.tags row'
  = TagsJson (keepTags
              ++ List.filter (λ t, bool_decide (t ∉ keepTags)) (spread_set removeTags))
  ∧ ((∀ t, t ∈ removeTags → t ∈ keepTags) → Db.tags row' = TagsJson keepTags).
Proof.
  intros Hk Hr Hnd. rewrite (executeMerge_run _ _ _ _ _ _ Hk Hr). cbn [snd].
  destruct (decide (id keep = id remove)) as [Heq|Hne].
  { rewrite Heq, merged_state_lookup_remove. done. }
  rewrite merged_state_lookup_keep by done.
  destruct (solutions st !! id keep) as [row|]; [|done].
  intros [= <-]. cbn [merged_row Db.tags].
  rewrite spread_set_app, (spread_set_NoDup_id _ Hnd).
  split; [done|]. intros Hsub.
  assert (Hall : ∀ t, t ∈ spread_set removeTags → t ∈ keepTags)
    by (intros t Ht; apply Hsub; by apply elem_of_spread_set).
  assert (Hnil : List.filter (λ t, bool_decide (t ∉ keepTags))
                   (spread_set removeTags) = []).
  { induction (spread_set removeTags) as [|t l IHl]; simpl; [done|].
    rewrite bool_decide_eq_false_2.
    - apply IHl. intros u Hu. apply Hall. by right.
    - intros Hn. apply Hn, Hall. by left. }
  by rewrite Hnil, app_nil_r.
Qed.

(** ** The interactive loop *)






End WithJson.

(** ** From the loaded table to the first merge *)

Lemma descending_lookup {A} (key : A → Q) l i j x y :
  descending key l → (i < j)%nat → l !! i = Some x → l !! j = Some y →
  (key y <= key x)%Q.
Proof.
  unfold descending. intros Hs. revert i j.
  induction Hs as [|z l Hl IH Hz]; intros i j Hij Hi Hj; [done|].
  destruct j as [|j]; [lia|]. simpl in Hj. destruct i as [|i]; simpl in Hi.
  - injection Hi as ->. rewrite Forall_forall in Hz.
    apply Hz. by eapply list_elem_of_lookup_2.
  - apply (IH i j); [lia|done|done].
Qed.

Lemma elem_of_load_solutions st s :
  s ∈ load_solutions st ↔
  ∃ row, solutions st !! id s = Some row ∧ s = to_solution (id s, row).
Proof.
  unfold load_solutions. rewrite elem_of_sort_desc, list_elem_of_fmap. split.
  - intros ([k row] & -> & Hin%elem_of_map_to_list). by exists row.
  - intros (row & Hrow & Hs). exists (id s, row). split; [done|].
    by apply elem_of_map_to_list.
Qed.

Lemma load_solutions_NoDup st : NoDup (id <$> load_solutions st).
Proof.
  unfold load_solutions. rewrite sort_desc_perm, <- list_fmap_compose.
  apply (NoDup_fst_map_to_list (solutions st)).
Qed.

(** X17: the candidates of a merge session.  The solutions are loaded in
    descending order of score and paired in that order, so in every
    candidate A has the score that is not lower: the keeper is always A and
    the one to remove is B.  Both are rows of the table as stored, with
    different ids. *)
Theorem loaded_candidates `{Helpers} threshold st c :
  c ∈ merge_candidates threshold (load_solutions st) →
  keeper c = a c
  ∧ removed c = b c
  ∧ (score (b c) <= score (a c))%Q
  ∧ id (a c) ≠ id (b c)
  ∧ (∃ row, solutions st !! id (a c) = Some row ∧ a c = to_solution (id (a c), row))
  ∧ (∃ row, solutions st !! id (b c) = Some row ∧ b c = to_solution (id (b c), row)).
Proof.
  rewrite merge_candidates_sort, elem_of_sort_desc, elem_of_scan_pairs.
  intros (i & j & Hij & Hi & Hj & _).
  assert (Hle : (score (b c) <= score (a c))%Q).
  { eapply (descending_lookup score (load_solutions st) i j); try done.
    apply sort_desc_sorted. }
  unfold keeper, removed. rewrite (proj2 (Qle_bool_iff _ _) Hle).
  split; [done|]. split; [done|]. split; [done|].
  split.
  { intros Heq. assert (i = j); [|lia].
    eapply NoDup_lookup; [apply (load_solutions_NoDup st)| |];
      rewrite list_lookup_fmap; [by rewrite Hi|by rewrite Hj, Heq]. }
  split; apply elem_of_load_solutions; by eapply list_elem_of_lookup_2.
Qed.

(** ** Runs against the test doubles *)

Import Mock.

Example parseArgs_sample :
  parseArgs ["--threshold=0"; "--type=failures"; "--type=other"; "--dry-run"]%string
  = mkMergeOptions (8 # 10) Failures true
  ∧ parseArgs ["--threshold=0.9=x"; "-n"]%string
    = mkMergeOptions (9 # 10) Solutions false.
Proof. split; vm_compute; reflexivity. Qed.

(** Merging A into B and then, with the stale pair, the removed A as keeper
    of the third solution: the third row is deleted as well. *)
Example merge_loop_sample :
  ∃ st', merge_loop [("v", 300); ("y", 301); ("y", 302); ("n", 303)]%string
           [mkMergeCandidate sol_b sol_a (40 # 41);
            mkMergeCandidate sol_a sol_c (1 # 2);
            mkMergeCandidate sol_b sol_c (1 # 2)] 0 0 three_solutions
         = (Ok (2%nat, 1%nat), st')
    ∧ size (solutions st') = 1%nat
    ∧ length (usage_log st') = 2%nat.
Proof. eexists. vm_compute. repeat split. Qed.

(** A pair with tags that are no JSON ends the loop at its first print,
    whatever the answers are. *)
Example merge_loop_sample_throw :
  merge_loop [("n", 300); ("y", 301)]%string
    [mkMergeCandidate sol_b sol_c (1 # 2);
     mkMergeCandidate sol_b sol_a_edited (40 # 41)] 0 0 edited_solutions
  = (Err (SyntaxError "auth,oauth"), edited_solutions)
  ∧ merge_loop []
      [mkMergeCandidate sol_b sol_a_edited (40 # 41)] 0 0 edited_solutions
    = (Err (SyntaxError "auth,oauth"), edited_solutions).
Proof. split; vm_compute; reflexivity. Qed.

Lemma executeMerge_keep_missing_witness :
  solutions (executeMerge sol_a sol_a 300 three_solutions).2
  = delete (id sol_a) (solutions three_solutions).
Proof.
  apply (executeMerge_keep_missing sol_a sol_a 300 three_solutions).
  - reflexivity.
  - right. reflexivity.
Defined.

Lemma merged_tags_order_witness :
  ∃ row',
    solutions (executeMerge sol_b sol_a 300 three_solutions).2 !! id sol_b = Some row'
    ∧ Db.tags row' = TagsJson ["oauth"; "google"; "auth"]%string.
Proof.
  eexists. split; [reflexivity|].
  refine (proj1 (merged_tags_order sol_b sol_a
                   ["oauth"; "google"]%string ["auth"; "oauth"]%string
                   300 three_solutions _ _ _ _ _)).
  - reflexivity.
  - reflexivity.
  - apply (bool_decide_unpack _). vm_compute. exact I.
  - reflexivity.
Defined.

Lemma loaded_candidates_witness :
  keeper (mkMergeCandidate sol_a sol_b (40 # 41)) = sol_a
  ∧ removed (mkMergeCandidate sol_a sol_b (40 # 41)) = sol_b.
Proof.
  pose proof (loaded_candidates (8 # 10) three_solutions
                (mkMergeCandidate sol_a sol_b (40 # 41))) as Hc.
  destruct Hc as (Hk & Hr & _).
  - vm_compute. apply list_elem_of_here.
  - split; [exact Hk | exact Hr].
Defined.

End MergeExtras.

(* ===================================================================== *)
(** * More on the TypeScript parser                                      *)
(* ===================================================================== *)

Module TsParserExtras.
Import Eff TsParser TsParserProofs.
Local Open Scope eff_scope.

(** ** The script kind *)

Lemma last_segment_app p s acc :
  last_segment (String.append p s) acc = last_segment s (last_segment p acc).
Proof.
  revert acc. induction p as [|c p IH]; intros acc; [done|].
  change (String.append (String c p) s) with (String c (String.append p s)).
  simpl. destruct (Ascii.eqb c (Ascii.ascii_of_nat 46)); apply IH.
Qed.

Lemma getScriptKind_suffix p ext :
  getScriptKind (String.append p (String.append "." ext))
  = getScriptKind (String.append "." ext).
Proof. unfold getScriptKind. by rewrite last_segment_app. Qed.

(** X18: only the text after the last dot of the path decides the script
    kind, whatever directories and base name come before it: [.ts] gives
    TS, [.tsx] TSX, [.js], [.mjs] and [.cjs] JS, [.jsx] JSX, in any letter
    case; the other extensions the scanner lets through ([.mts], [.cts])
    fall to the default TS. *)
Theorem getScriptKind_by_extension p :
  (∀ ext, getScriptKind (String.append p (String.append "." ext))
          = getScriptKind (String.append "." ext))
  ∧ getScriptKind (String.append p ".ts") = TS
  ∧ getScriptKind (String.append p ".tsx") = TSX
  ∧ getScriptKind (String.append p ".js") = JS
  ∧ getScriptKind (String.append p ".mjs") = JS
  ∧ getScriptKind (String.append p ".cjs") = JS
  ∧ getScriptKind (String.append p ".jsx") = JSX
  ∧ getScriptKind (String.append p ".TSX") = TSX
  ∧ getScriptKind (String.append p ".Js") = JS
  ∧ getScriptKind (String.append p ".mts") = TS
  ∧ getScriptKind (String.append p ".cts") = TS.
Proof.
  split; [intros ext; apply getScriptKind_suffix|].
  repeat split;
    match goal with
    | |- getScriptKind (String.append p (String ?c ?ext)) = ?k =>
        change (getScriptKind (String.append p (String.append "." ext)) = k);
        rewrite (getScriptKind_suffix p ext); reflexivity
    end.
Qed.

(** ** Invariants of the symbols and imports *)

Section KeepsAll.
Context {A : Type} (Ps : ExtractedSymbol → Prop) (Pi : ExtractedImport → Prop).

Lemma all_ok_push_symbol s : Ps s → keeps (all_ok Ps Pi) (push_symbol s).
Proof.
  intros Hs out [Hsym Himp]. split; simpl; [|done].
  apply Forall_app. split; [done|]. by constructor.
Qed.

Lemma all_ok_push_import i : Pi i → keeps (all_ok Ps Pi) (push_import i).
Proof.
  intros Hi out [Hsym Himp]. split; simpl; [done|].
  apply Forall_app. split; [done|]. by constructor.
Qed.

(** A call whose outcome the rest of the handler depends on. *)
Lemma keeps_bind_call {B} (Q : Output → Prop) (r : api A) (k : A → P B) :
  (∀ x, r = Ok x → keeps Q (k x)) → keeps Q (bind (call r) k).
Proof.
  intros Hk out HQ. unfold bind, call. destruct r as [x|e]; simpl; [|done].
  by apply Hk.
Qed.

Lemma visit_keeps_all :
  (∀ data scope, keeps (all_ok Ps Pi) (handle data scope)) →
  ∀ n scope out, all_ok Ps Pi out → all_ok Ps Pi (visit n scope out).
Proof.
  intros Hhandle n. induction n as [data children IH] using Node_ind'.
  intros scope out Hout. rewrite visit_unfold.
  pose proof (Hhandle data scope out Hout) as Hh.
  destruct (handle data scope out) as [[u|e] o1]; simpl in Hh; [|done].
  unfold visit_children. generalize (child_scope data scope). intros cs.
  revert o1 Hh. induction IH as [|c rest Hc _ IHrest]; intros o1 Hh; simpl.
  - done.
  - apply IHrest. by apply Hc.
Qed.

End KeepsAll.

Ltac shape_solve :=
  unfold symbol_shape, import_shape, scope_among, rbind in *; simpl in *;
  repeat case_match; simplify_eq; simpl in *;
  repeat split; intros; try done; try naive_solver.

Ltac shape_step :=
  first
    [ apply keeps_ret
    | apply keeps_call
    | apply all_ok_push_import; shape_solve
    | apply all_ok_push_symbol; shape_solve
    | apply keeps_for_each; intros
    | apply keeps_bind_call; intros ? ?
    | apply keeps_bind; [|intros]
    | match goal with
      | |- keeps _ (match ?x with _ => _ end) => destruct x eqn:?
      end ].

Ltac unfold_handlers :=
  unfold handleFunctionDeclaration, handleClassDeclaration,
    handleInterfaceDeclaration, handleTypeAliasDeclaration,
    handleEnumDeclaration, handleVariableStatement, handleMethodDeclaration,
    handlePropertyDeclaration, handleImportDeclaration,
    handleExportDeclaration, handleExportAssignment.

Lemma handle_shapes data scope :
  keeps (all_ok symbol_shape import_shape) (handle data scope).
Proof. destruct data; simpl; unfold_handlers; repeat shape_step. Qed.

Lemma handle_scopes names data scope :
  scope_among names scope →
  keeps (all_ok (λ s, scope_among names (TsParser.scope s)) (λ _, True))
        (handle data scope).
Proof.
  intros Hscope. destruct data; simpl; unfold_handlers; repeat shape_step.
Qed.

Lemma class_names_child data children child name :
  child ∈ children → name ∈ class_names child →
  name ∈ class_names (mkNode data children).
Proof.
  intros Hc Hn. simpl. apply elem_of_app. right.
  apply list_elem_of_In, in_flat_map. exists child.
  split; by apply list_elem_of_In.
Qed.

Lemma visit_scopes names n :
  (∀ name, name ∈ class_names n → name ∈ names) →
  ∀ scope out,
    scope_among names scope →
    all_ok (λ s, scope_among names (TsParser.scope s)) (λ _, True) out →
    all_ok (λ s, scope_among names (TsParser.scope s)) (λ _, True)
           (visit n scope out).
Proof.
  induction n as [data children IH] using Node_ind'.
  intros Hnames scope out Hscope Hout. rewrite visit_unfold.
  pose proof (handle_scopes names data scope Hscope out Hout) as Hh.
  destruct (handle data scope out) as [[u|e] o1]; simpl in Hh; [|done].
  assert (Hcs : scope_among names (child_scope data scope)).
  { destruct data as [| cname hd | | | | | | | | | |]; try exact Hscope.
    destruct cname as [cname|]; simpl; [|exact I]. apply Hnames. simpl. left. }
  assert (Hsub : ∀ child, child ∈ children →
                          ∀ name, name ∈ class_names child → name ∈ names).
  { intros child Hc name Hn. apply Hnames. by eapply class_names_child. }
  unfold visit_children. revert Hcs. generalize (child_scope data scope).
  intros cs Hcs. clear Hnames Hout.
  revert o1 Hh. induction IH as [|c rest Hc _ IHrest]; intros o1 Hh; simpl.
  - done.
  - apply IHrest.
    + intros child Hin. apply Hsub. by right.
    + apply Hc; [|done|done]. apply Hsub. left.
Qed.

Section WithTypeScript.
Context `{TypeScript}.

Lemma parseFile_all_ok Ps Pi filePath content :
  (∀ root, createSourceFile filePath content (getScriptKind filePath) = Ok root →
           all_ok Ps Pi (visit root None empty_output)) →
  Forall Ps (symbols (parseFile filePath content))
  ∧ Forall Pi (imports (parseFile filePath content)).
Proof.
  intros Hroot. unfold parseFile.
  destruct (createSourceFile filePath content (getScriptKind filePath))
    as [root|message]; simpl.
  - by apply Hroot.
  - split; constructor.
Qed.

(** X19: the fields of every symbol [parseFile] returns go with its kind.
    Only function and class symbols can be the default export; the end
    line is missing exactly on property symbols; class, interface, enum,
    const and variable symbols have no signature, while function, method
    and type symbols always have one. *)
Theorem symbols_have_shape filePath content :
  Forall symbol_shape (symbols (parseFile filePath content)).
Proof.
  apply (parseFile_all_ok symbol_shape import_shape). intros root _.
  apply visit_keeps_all; [apply handle_shapes|]. split; constructor.
Qed.

(** X20: the flags of every import [parseFile] returns go together: a
    default import is never a namespace import, and a local alias appears
    only on named imports (neither default nor namespace). *)
Theorem imports_have_shape filePath content :
  Forall import_shape (imports (parseFile filePath content)).
Proof.
  apply (parseFile_all_ok symbol_shape import_shape). intros root _.
  apply visit_keeps_all; [apply handle_shapes|]. split; constructor.
Qed.

(** X21: the scope of every symbol [parseFile] returns is absent or the
    name of a class declared in the file. *)
Theorem scopes_are_classes filePath content root :
  createSourceFile filePath content (getScriptKind filePath) = Ok root →
  Forall (λ s, scope_among (class_names root) (TsParser.scope s))
         (symbols (parseFile filePath content)).
Proof.
  intros Hroot.
  apply (parseFile_all_ok _ (λ _, True)). intros root' Hroot'.
  rewrite Hroot in Hroot'. injection Hroot' as <-.
  apply visit_scopes; [done|done|]. split; constructor.
Qed.

End WithTypeScript.

(** ** Runs against the test doubles *)

Import Mock.

Lemma scopes_are_classes_witness :
  Forall (λ s, scope_among (class_names class_tree) (TsParser.scope s))
         (symbols (parseFile "src/repo.ts" "class")).
Proof.
  apply (scopes_are_classes "src/repo.ts" "class" class_tree). reflexivity.
Defined.

End TsParserExtras.

(* ===================================================================== *)
(** * The file scanner                                                    *)
(* ===================================================================== *)

Module ScannerExtras.
Import Scanner JsFacts.

Section WithRuntime.
Context `{Runtime}.

Lemma ending_found p e (l : list string) :
  e ∈ l → existsb (λ e', Js.endsWith e' (String.append p e)) l = true.
Proof.
  intros Hin. apply existsb_exists. exists e.
  split; [by apply list_elem_of_In | apply endsWith_append].
Qed.

Lemma directory_found filePath dir :
  dir ∈ DEFAULT_EXCLUDES →
  dir ∈ Js.split (Ascii.ascii_of_nat 47) filePath →
  in_excluded_directory filePath = true.
Proof.
  intros Hdir Hin. unfold in_excluded_directory. apply existsb_exists.
  exists dir. split; [by apply list_elem_of_In | by apply bool_decide_eq_true_2].
Qed.

Lemma excluded_name_piece dir :
  dir ∈ DEFAULT_EXCLUDES → Js.split (Ascii.ascii_of_nat 47) dir = [dir].
Proof.
  unfold DEFAULT_EXCLUDES. intros Hdir.
  repeat (apply elem_of_cons in Hdir as [-> | Hdir]; [by vm_compute|]).
  by apply elem_of_nil in Hdir.
Qed.

(** X22: the built-in rules of [isExcluded] come before the custom
    patterns: a path with one of the excluded directory names among its
    segments, or with one of the declaration, test or bundle endings, is
    excluded whatever the custom patterns are, and without consulting the
    expression engine, so the call cannot be rejected there. *)
Theorem isExcluded_builtin (patterns : list string) :
  (∀ filePath dir,
     dir ∈ DEFAULT_EXCLUDES → dir ∈ Js.split (Ascii.ascii_of_nat 47) filePath →
     isExcluded filePath patterns = Some true)
  ∧ (∀ a dir b,
       dir ∈ DEFAULT_EXCLUDES →
       isExcluded
         (String.append a (String.append "/" (String.append dir (String.append "/" b))))
         patterns = Some true)
  ∧ (∀ p e,
       e ∈ declaration_endings ++ test_endings ++ minified_endings →
       isExcluded (String.append p e) patterns = Some true).
Proof.
  split; [|split].
  - intros filePath dir Hdir Hin. unfold isExcluded.
    by rewrite (directory_found _ _ Hdir Hin).
  - intros a dir b Hdir. unfold isExcluded.
    rewrite (directory_found _ dir Hdir); [done|].
    change (String.append a (String.append "/" (String.append dir (String.append "/" b))))
      with (String.append a (String (Ascii.ascii_of_nat 47)
              (String.append dir (String (Ascii.ascii_of_nat 47) b)))).
    rewrite !split_app, (excluded_name_piece _ Hdir). set_solver.
  - intros p e He. unfold isExcluded, is_declaration_file, is_test_file, is_minified_file.
    destruct (in_excluded_directory _); [done|].
    apply elem_of_app in He as [He | He]; [by rewrite (ending_found _ _ _ He)|].
    destruct (existsb _ declaration_endings); [done|].
    apply elem_of_app in He as [He | He]; [by rewrite (ending_found _ _ _ He)|].
    destruct (existsb _ test_endings); [done|].
    by rewrite (ending_found _ _ _ He).
Qed.

Lemma matches_custom_plain filePath patterns :
  Forall (λ pattern, Js.includes "*" pattern = false) patterns →
  matches_custom filePath patterns
  = Some (existsb (λ pattern, Js.includes pattern filePath) patterns).
Proof.
  induction 1 as [|pattern patterns Hplain _ IH]; [done|].
  simpl. rewrite Hplain. destruct (Js.includes pattern filePath); [done|exact IH].
Qed.

(** X23: with custom patterns that hold no star, [isExcluded] never builds
    an expression, so it always answers; and it excludes a path exactly
    when a built-in rule does or one of the patterns occurs in the path as
    a substring. *)
Theorem isExcluded_plain_patterns filePath patterns :
  Forall (λ pattern, Js.includes "*" pattern = false) patterns →
  ∃ excluded,
    isExcluded filePath patterns = Some excluded
    ∧ (excluded = true ↔
       isExcluded filePath [] = Some true
       ∨ ∃ pattern, pattern ∈ patterns ∧ Js.includes pattern filePath = true).
Proof.
  intros Hplain. unfold isExcluded.
  destruct (in_excluded_directory filePath); [exists true; split; [done|]; by split; [left|]|].
  destruct (is_declaration_file filePath); [exists true; split; [done|]; by split; [left|]|].
  destruct (is_test_file filePath); [exists true; split; [done|]; by split; [left|]|].
  destruct (is_minified_file filePath); [exists true; split; [done|]; by split; [left|]|].
  rewrite (matches_custom_plain _ _ Hplain). eexists. split; [done|]. simpl. split.
  - intros (pattern & Hin & Hinc)%existsb_exists. right.
    exists pattern. split; [by apply list_elem_of_In | done].
  - intros [? | (pattern & Hin & Hinc)]; [done|]. apply existsb_exists.
    exists pattern. split; [by apply list_elem_of_In | done].
Qed.

Lemma scan_loop_spec options paths files out :
  scan_loop options paths files = Some out →
  ∃ new,
    out = files ++ new
    ∧ (Indexer.path <$> new) `sublist_of` paths
    ∧ ∀ f, f ∈ new ↔
        ∃ filePath stats,
          filePath ∈ paths ∧ accepted options filePath stats
          ∧ f = scanned options filePath stats.
Proof.
  revert files out. induction paths as [|filePath rest IH]; intros files out Hrun.
  - simpl in Hrun. injection Hrun as <-. exists []. rewrite app_nil_r.
    split; [done|]. split; [done|]. intros f. split; [by intros ?%elem_of_nil|].
    by intros (? & ? & ?%elem_of_nil & _).
  - cbn [scan_loop] in Hrun.
    assert (Hskip : ∀ out',
      (∀ stats, ¬ accepted options filePath stats) →
      scan_loop options rest files = Some out' →
      ∃ new, out' = files ++ new
        ∧ (Indexer.path <$> new) `sublist_of` filePath :: rest
        ∧ ∀ f, f ∈ new ↔
            ∃ p stats, p ∈ filePath :: rest ∧ accepted options p stats
              ∧ f = scanned options p stats).
    { intros out' Hno Hrest. destruct (IH _ _ Hrest) as (new & -> & Hsub & Hnew).
      exists new. split; [done|]. split; [by apply sublist_cons|].
      intros f. rewrite Hnew. split.
      - intros (p & stats & Hp & Hacc & ->). exists p, stats.
        split; [by right|done].
      - intros (p & stats & Hp & Hacc & ->).
        apply elem_of_cons in Hp as [-> | Hp]; [by destruct (Hno stats)|].
        by exists p, stats. }
    destruct (in_excluded_directory filePath) eqn:Hdir.
    { apply Hskip; [|done]. intros stats (Hd & _). congruence. }
    destruct (some_excludes filePath (allExcludes options)) as [excluded|] eqn:Hex;
      [|discriminate Hrun].
    destruct excluded.
    { apply Hskip; [|done]. intros stats (_ & He & _). congruence. }
    cbv zeta in Hrun.
    destruct (stat (path_join (repoRoot options) filePath)) as [stats|] eqn:Hstat.
    2:{ apply Hskip; [|done]. intros stats (_ & _ & Hs & _). congruence. }
    case_bool_decide as Hsize.
    { apply Hskip; [|done]. intros stats' (_ & _ & Hs & Hle).
      rewrite Hstat in Hs. injection Hs as <-. lia. }
    destruct (IH _ _ Hrun) as (new & -> & Hsub & Hnew).
    exists (scanned options filePath stats :: new). split.
    { unfold scanned. by rewrite <- app_assoc. }
    split; [by apply sublist_skip|].
    intros f. rewrite elem_of_cons, Hnew. split.
    + intros [-> | (p & stats' & Hp & Hacc & ->)].
      * exists filePath, stats. split; [by left|]. split; [|done].
        repeat split; [done..|lia].
      * exists p, stats'. split; [by right|done].
    + intros (p & stats' & Hp & Hacc & ->).
      apply elem_of_cons in Hp as [-> | Hp].
      * left. destruct Hacc as (_ & _ & Hs & _).
        rewrite Hstat in Hs. by injection Hs as <-.
      * right. by exists p, stats'.
Qed.

(** X24: when [scanRepository] returns, the paths of its files are, in
    order, among those the glob scan produced, and a file is returned
    exactly for the produced paths that lie in no excluded directory, match
    no exclusion, have readable stats and are no larger than [maxFileSize];
    the file has the joined absolute path and the floor of the stat's
    modification time. *)
Theorem scanRepository_files options files :
  scanRepository options = Some files →
  (Indexer.path <$> files) `sublist_of` glob_scan glob_pattern (repoRoot options)
  ∧ ∀ f, f ∈ files ↔
      ∃ filePath stats,
        filePath ∈ glob_scan glob_pattern (repoRoot options)
        ∧ accepted options filePath stats
        ∧ f = scanned options filePath stats.
Proof.
  unfold scanRepository. intros Hrun.
  destruct (scan_loop_spec _ _ _ _ Hrun) as (new & -> & Hsub & Hnew). done.
Qed.

End WithRuntime.

Example glob_pattern_text :
  glob_pattern = "**/*.{ts,tsx,js,jsx,mjs,mts,cts,cjs}"%string.
Proof. reflexivity. Qed.

Example scanRepository_sample :
  scanRepository Mock.sample_options
  = Some [Indexer.mkScannedFile "src/a.ts" "/repo/src/a.ts" 1700000000123;
          Indexer.mkScannedFile "lib/b.js" "/repo/lib/b.js" 5].
Proof. by vm_compute. Qed.

Lemma isExcluded_plain_patterns_witness :
  ∃ excluded,
    isExcluded "src/fixtures/a.ts" ["fixtures"%string] = Some excluded
    ∧ (excluded = true ↔
       isExcluded "src/fixtures/a.ts" [] = Some true
       ∨ ∃ pattern, pattern ∈ ["fixtures"%string]
                    ∧ Js.includes pattern "src/fixtures/a.ts" = true).
Proof.
  apply (isExcluded_plain_patterns "src/fixtures/a.ts" ["fixtures"%string]).
  repeat constructor.
Defined.

Lemma scanRepository_files_witness :
  let files := [Indexer.mkScannedFile "src/a.ts" "/repo/src/a.ts" 1700000000123;
                Indexer.mkScannedFile "lib/b.js" "/repo/lib/b.js" 5] in
  (Indexer.path <$> files)
    `sublist_of` glob_scan glob_pattern (repoRoot Mock.sample_options)
  ∧ ∀ f, f ∈ files ↔
      ∃ filePath stats,
        filePath ∈ glob_scan glob_pattern (repoRoot Mock.sample_options)
        ∧ accepted Mock.sample_options filePath stats
        ∧ f = scanned Mock.sample_options filePath stats.
Proof.
  apply (scanRepository_files Mock.sample_options). by vm_compute.
Defined.

End ScannerExtras.
